(** * WebCore colour matrices and the WHLSL scoped set adder

    A shallow embedding of

    - [Source/WebCore/platform/graphics/ColorMatrix.h]: the class template
      [ColorMatrix<ColumnCount, RowCount>], its equality operators, the four
      filter matrix factories, [transformedColorComponents] and
      [applyMatricesToColorComponents];
    - [Source/WebCore/Modules/webgpu/WHLSL/WHLSLScopedSetAdder.h]: the RAII
      helper [ScopedSetAdder<T>].

    The C++ type [float] is IEEE 754 binary32.  It is modelled by the
    executable specification of floating-point arithmetic of the standard
    library, [SpecFloat], at precision 24 and maximal exponent 128, with
    rounding to nearest, ties to even.  Every arithmetic operator of the
    source is one correctly rounded binary32 operation (no excess precision,
    no fused multiply-add). *)

From Stdlib Require Import ZArith Lia Bool List.
From Stdlib Require Import Floats.SpecFloat.
From stdpp Require Import base list gmap.

(** ** The type [float] *)

Module F32.

Local Open Scope Z_scope.

Definition prec : Z := 24.
Definition emax : Z := 128.

Definition float : Type := spec_float.

Definition fadd : float → float → float := SFadd prec emax.
Definition fsub : float → float → float := SFsub prec emax.
Definition fmul : float → float → float := SFmul prec emax.
Definition fdiv : float → float → float := SFdiv prec emax.

(** The comparison operators [<], [==] and [!=] of C++ on [float]: every
    comparison with a NaN is false, except [!=], which is true. *)
Definition flt : float → float → bool := SFltb.
Definition feq : float → float → bool := SFeqb.
Definition fne (x y : float) : bool := negb (feq x y).

(** A value of the type: a finite number in canonical form, a zero, an
    infinity or a NaN. *)
Definition valid (x : float) : bool := valid_binary prec emax x.

(** The literals [0.0f] and [1.0f]. *)
Definition f0 : float := S754_zero false.
Definition f1 : float := S754_finite false 8388608 (-23).

(** A positive integer below [2^24] as a [float] (exact). *)
Definition of_pos (n : positive) : float := binary_round prec emax false n 0.

(** The decimal literal [n / d] with the suffix [f], for integers [n] and
    [d] below [2^24]: the binary32 number nearest to the quotient, which is
    what the correctly rounded division of the two integers returns. *)
Definition lit (n d : positive) : float := fdiv (of_pos n) (of_pos d).

(** The 32-bit encoding of a value, to compare the literals with the
    constants a compiler emits.  The NaN of the model has no payload; it is
    given the encoding of the default quiet NaN. *)
Definition bits (x : float) : Z :=
  match x with
  | S754_zero s => if s then 0x80000000 else 0
  | S754_infinity s => if s then 0xff800000 else 0x7f800000
  | S754_nan => 0x7fc00000
  | S754_finite s m e =>
      (if s then 0x80000000 else 0) +
      (if Z.pos m <? 0x800000 then Z.pos m
       else Z.shiftl (e + 150) 23 + (Z.pos m - 0x800000))
  end.

Definition is_nan (x : float) : bool :=
  match x with S754_nan => true | _ => false end.

Definition is_finite (x : float) : bool :=
  match x with S754_finite _ _ _ => true | _ => false end.

(** [std::clamp(v, lo, hi)], which is
    [(v < lo) ? lo : (hi < v) ? hi : v]. *)
Definition clamp (v lo hi : float) : float :=
  if flt v lo then lo else if flt hi v then hi else v.

(** Two values denote the same number: they are identical, or they are
    zeros of either sign. *)
Definition same_number (x y : float) : Prop :=
  x = y ∨ ((x = S754_zero false ∨ x = S754_zero true) ∧
           (y = S754_zero false ∨ y = S754_zero true)).

#[global] Instance float_inhabited : Inhabited float := populate f0.

#[global] Instance float_eq_dec : EqDecision float.
Proof. solve_decision. Defined.

End F32.

Import F32.

Declare Scope f32_scope.
Delimit Scope f32_scope with f32.
Infix "+" := fadd : f32_scope.
Infix "-" := fsub : f32_scope.
Infix "*" := fmul : f32_scope.
Infix "/" := fdiv : f32_scope.

(** ** ColorMatrix.h *)

Module ColorMatrix.

(** [template<size_t ColumnCount, size_t RowCount> class ColorMatrix]:
    the coefficients in row-major order, [std::array<float, RowCount *
    ColumnCount>]. *)
Record ColorMatrix (ColumnCount RowCount : nat) : Type :=
  mk { m_matrix : list float }.
Arguments mk {ColumnCount RowCount} m_matrix.
Arguments m_matrix {ColumnCount RowCount} _.

(** The constructor's [static_assert]: exactly [RowCount * ColumnCount]
    coefficients. *)
Definition well_sized {C R : nat} (m : ColorMatrix C R) : Prop :=
  length (m_matrix m) = (R * C)%nat.

(** [at(row, column)] is [m_matrix[(row * ColumnCount) + column]].  The
    index is in range in every call the header makes; outside the array the
    source has no defined behaviour and the model reads [0.0f]. *)
Definition at_ {C R : nat} (m : ColorMatrix C R) (row column : nat) : float :=
  m_matrix m !!! (row * C + column)%nat.

(** A [for] loop [for (size_t i = lo; i < hi; ++i) body], over a state. *)
Definition for_loop {State : Type} (lo hi : nat)
    (body : nat → State → State) (s : State) : State :=
  fold_left (λ s i, body i s) (seq lo (hi - lo)) s.

(** A loop whose body may [return false]: the remaining iterations are
    not run once one of them has returned. *)
Fixpoint all_from (lo n : nat) (body : nat → bool) : bool :=
  match n with
  | O => true
  | S n' => if body lo then all_from (S lo) n' body else false
  end.

(** [operator==]: both loops, leaving with [false] at the first pair of
    coefficients for which [!=] holds. *)
Definition operator_eq {C R : nat} (a b : ColorMatrix C R) : bool :=
  all_from 0 R (λ row,
    all_from 0 C (λ column,
      if fne (at_ a row column) (at_ b row column) then false else true)).

(** [operator!=]. *)
Definition operator_ne {C R : nat} (a b : ColorMatrix C R) : bool :=
  negb (operator_eq a b).

Local Open Scope f32_scope.

Definition grayscaleColorMatrix (amount : float) : ColorMatrix 3 3 :=
  let oneMinusAmount := clamp (f1 - amount) f0 f1 in
  mk [ lit 2126 10000 + lit 7874 10000 * oneMinusAmount;
       lit 7152 10000 - lit 7152 10000 * oneMinusAmount;
       lit 722 10000 - lit 722 10000 * oneMinusAmount;
       lit 2126 10000 - lit 2126 10000 * oneMinusAmount;
       lit 7152 10000 + lit 2848 10000 * oneMinusAmount;
       lit 722 10000 - lit 722 10000 * oneMinusAmount;
       lit 2126 10000 - lit 2126 10000 * oneMinusAmount;
       lit 7152 10000 - lit 7152 10000 * oneMinusAmount;
       lit 722 10000 + lit 9278 10000 * oneMinusAmount ].

Definition sepiaColorMatrix (amount : float) : ColorMatrix 3 3 :=
  let oneMinusAmount := clamp (f1 - amount) f0 f1 in
  mk [ lit 393 1000 + lit 607 1000 * oneMinusAmount;
       lit 769 1000 - lit 769 1000 * oneMinusAmount;
       lit 189 1000 - lit 189 1000 * oneMinusAmount;
       lit 349 1000 - lit 349 1000 * oneMinusAmount;
       lit 686 1000 + lit 314 1000 * oneMinusAmount;
       lit 168 1000 - lit 168 1000 * oneMinusAmount;
       lit 272 1000 - lit 272 1000 * oneMinusAmount;
       lit 534 1000 - lit 534 1000 * oneMinusAmount;
       lit 131 1000 + lit 869 1000 * oneMinusAmount ].

Definition saturationColorMatrix (amount : float) : ColorMatrix 3 3 :=
  mk [ lit 213 1000 + lit 787 1000 * amount;
       lit 715 1000 - lit 715 1000 * amount;
       lit 72 1000 - lit 72 1000 * amount;
       lit 213 1000 - lit 213 1000 * amount;
       lit 715 1000 + lit 285 1000 * amount;
       lit 72 1000 - lit 72 1000 * amount;
       lit 213 1000 - lit 213 1000 * amount;
       lit 715 1000 - lit 715 1000 * amount;
       lit 72 1000 + lit 928 1000 * amount ].

Local Close Scope f32_scope.

(** *** What ColorMatrix.h takes from other headers *)

(** Modelled from the spec: [wtf/MathExtras.h] is not among the sources.
    [piFloat] is the binary32 number nearest to pi. *)
Definition piFloat : float := S754_finite false 13176795 (-22).

(** Modelled from the spec: [deg2rad] of [wtf/MathExtras.h], which is not
    among the sources.  The factory has the angle "converted from degrees to
    radians"; the header does so in [float], as [d * piFloat / 180.0f]. *)
Definition deg2rad (d : float) : float := ((d * piFloat) / of_pos 180)%f32.

Section HueRotate.

(** [cos] and [sin] of [<math.h>], on [float].  They are not computable
    exactly; the C standard (Annex F, following IEEE 754) fixes their
    value at zero, which is all that is used of them here. *)
Variables cos sin : float → float.

Definition hueRotateColorMatrix (angleInDegrees : float) : ColorMatrix 3 3 :=
  let cosHue := cos (deg2rad angleInDegrees) in
  let sinHue := sin (deg2rad angleInDegrees) in
  mk [ lit 213 1000 + cosHue * lit 787 1000 - sinHue * lit 213 1000;
       lit 715 1000 - cosHue * lit 715 1000 - sinHue * lit 715 1000;
       lit 72 1000 - cosHue * lit 72 1000 + sinHue * lit 928 1000;
       lit 213 1000 - cosHue * lit 213 1000 + sinHue * lit 143 1000;
       lit 715 1000 + cosHue * lit 285 1000 + sinHue * lit 140 1000;
       lit 72 1000 - cosHue * lit 72 1000 - sinHue * lit 283 1000;
       lit 213 1000 - cosHue * lit 213 1000 - sinHue * lit 787 1000;
       lit 715 1000 - cosHue * lit 715 1000 + sinHue * lit 715 1000;
       lit 72 1000 + cosHue * lit 928 1000 + sinHue * lit 72 1000 ]%f32.

End HueRotate.

(** Modelled from the spec: [ColorComponents.h] is not among the sources.
    [ColorComponents<float>] is "a fixed-size numeric vector" with
    "indexed get/set", whose size [Size] is a compile-time constant, taken
    below as a parameter. *)
Abbreviation ColorComponents := (list float).

(** A matrix of any dimensions: one argument of the parameter pack
    [Matrices...] of [applyMatricesToColorComponents]. *)
Record AnyMatrix : Type :=
  any { columns : nat; rows : nat; matrix_of : ColorMatrix columns rows }.
Arguments any {columns rows} matrix_of.

Section Transform.

Variable Size : nat.

(** Modelled from the spec: the default constructor of
    [ColorComponents<float>], which is not among the sources.  Every
    component is [0], the value the sums of the transform start from. *)
Definition ColorComponents_default : ColorComponents := replicate Size f0.

(** [result[i] += x] *)
Definition add_assign (i : nat) (x : float) (result : ColorComponents)
  : ColorComponents :=
  <[i := (result !!! i + x)%f32]> result.

(** [ColorMatrix<ColumnCount, RowCount>::transformedColorComponents].
    The [static_assert(Size >= RowCount)] keeps every write in range. *)
Definition transformedColorComponents {C R : nat}
    (m : ColorMatrix C R) (inputVector : ColorComponents) : ColorComponents :=
  let result := ColorComponents_default in
  let result :=
    for_loop 0 R (λ row result,
      if decide (C ≤ Size)%nat then
        for_loop 0 C (λ column result,
          add_assign row (at_ m row column * inputVector !!! column)%f32 result)
          result
      else
        let result :=
          for_loop 0 Size (λ column result,
            add_assign row (at_ m row column * inputVector !!! column)%f32 result)
            result in
        for_loop Size C (λ additionalColumn result,
          add_assign row (at_ m row additionalColumn) result)
          result)
      result in
  if decide (R < Size)%nat then
    for_loop R Size (λ additionalRow result,
      <[additionalRow := inputVector !!! additionalRow]> result)
      result
  else result.

Definition transformed (m : AnyMatrix) (v : ColorComponents) : ColorComponents :=
  transformedColorComponents (matrix_of m) v.

(** [applyMatricesToColorComponents(components, matrix, matrices...)]:
    the overload for one matrix when the pack is empty, the recursive
    overload otherwise. *)
Fixpoint applyMatricesToColorComponents (components : ColorComponents)
    (matrix : AnyMatrix) (matrices : list AnyMatrix) : ColorComponents :=
  match matrices with
  | [] => transformed matrix components
  | next :: rest =>
      applyMatricesToColorComponents (transformed matrix components) next rest
  end.

End Transform.

End ColorMatrix.

Import ColorMatrix.

(** ** WHLSLScopedSetAdder.h *)

Module WHLSL.

Section ScopedSetAdder.

Context {T : Type} {T_eq_dec : EqDecision T} {T_countable : Countable T}.

(** Modelled from the spec: [HashSet<T>::add] of [wtf/HashSet.h], which is
    not among the sources.  A [HashSet<T>] is a finite set, here a [gset T];
    [add] inserts the item unless it is a member already and reports, as
    [isNewEntry], whether it inserted. *)
Definition HashSet_add (set : gset T) (item : T) : gset T * bool :=
  if decide (item ∈ set) then (set, false) else ({[item]} ∪ set, true).

(** Modelled from the spec: [HashSet<T>::remove] of [wtf/HashSet.h], which
    is not among the sources.  It deletes the item and reports whether the
    item was a member. *)
Definition HashSet_remove (set : gset T) (item : T) : gset T * bool :=
  if decide (item ∈ set) then (set ∖ {[item]}, true) else (set, false).

(** The members [m_item] and [m_isNewEntry].  The member [m_set] is a
    reference to the caller's set: the set is passed to the constructor
    and to the destructor, which return it as they leave it. *)
Record ScopedSetAdder : Type :=
  { m_item : T; m_isNewEntry : bool }.

Definition ScopedSetAdder_ctor (set : gset T) (item : T)
  : gset T * ScopedSetAdder :=
  let '(set', isNew) := HashSet_add set item in
  (set', {| m_item := item; m_isNewEntry := isNew |}).

(** The destructor.  [None] is a failure of
    [ASSERT_UNUSED(success, success)]. *)
Definition ScopedSetAdder_dtor (self : ScopedSetAdder) (set : gset T)
  : option (gset T) :=
  if negb (m_isNewEntry self) then Some set
  else
    let '(set', success) := HashSet_remove set (m_item self) in
    if success then Some set' else None.

Definition isNewEntry (self : ScopedSetAdder) : bool := m_isNewEntry self.

(** Scopes that nest: an adder for each item in turn, each one destroyed
    after the ones constructed later. *)
Fixpoint nested_scopes (items : list T) (set : gset T) : option (gset T) :=
  match items with
  | [] => Some set
  | item :: rest =>
      let '(set', adder) := ScopedSetAdder_ctor set item in
      match nested_scopes rest set' with
      | Some set'' => ScopedSetAdder_dtor adder set''
      | None => None
      end
  end.

End ScopedSetAdder.

End WHLSL.

Import WHLSL.

(** ** The vocabulary of the properties *)

(** The outcome of rounding a nonzero number: a finite number or an infinity
    of the sign [s]. *)
Definition signed_nonzero (s : bool) (r : float) : Prop :=
  r = S754_infinity s ∨ ∃ m e, r = S754_finite s m e.

(** A rounded value that is at least [1.0f]: the positive infinity, or a
    positive finite number whose mantissa and exponent are at least those of
    [1.0f]. *)
Definition at_least_one (r : float) : Prop :=
  r = S754_infinity false ∨
  ∃ m e, r = S754_finite false m e ∧ (2 ^ 23 ≤ Z.pos m)%Z ∧ (-23 ≤ e)%Z.

(** The matrix [a] with the coefficient at [(row, column)] replaced. *)
Definition with_coefficient {C R : nat} (a : ColorMatrix C R)
    (row column : nat) (x : float) : ColorMatrix C R :=
  mk (<[(row * C + column)%nat := x]> (m_matrix a)).

(** The sum of [terms] accumulated from left to right by binary32
    additions, starting from [acc]. *)
Definition sum_from (acc : float) (terms : list float) : float :=
  fold_left fadd terms acc.

(** The products [at(row, c) * inputVector[c]] for the columns [c] in
    [[0, n)], in the order of the columns. *)
Definition products {C R : nat} (m : ColorMatrix C R) (inputVector : list float)
    (row n : nat) : list float :=
  map (λ c, (at_ m row c * inputVector !!! c)%f32) (seq 0 n).

(** The coefficients [at(row, c)] for the columns [c] in [[lo, hi)]. *)
Definition coefficients {C R : nat} (m : ColorMatrix C R)
    (row lo hi : nat) : list float :=
  map (λ c, at_ m row c) (seq lo (hi - lo)).

(** The same coefficients, each multiplied by the constant [1.0f]. *)
Definition coefficients_times_one {C R : nat} (m : ColorMatrix C R)
    (row lo hi : nat) : list float :=
  map (λ c, (at_ m row c * f1)%f32) (seq lo (hi - lo)).

(** What one row adds to its component of the result. *)
Definition row_terms (Size : nat) {C R : nat} (m : ColorMatrix C R)
    (inputVector : list float) (row : nat) : list float :=
  if decide (C ≤ Size)%nat then products m inputVector row C
  else products m inputVector row Size ++ coefficients m row Size C.

(** The body of the loop over the rows in [transformedColorComponents], and
    the state when that loop ends. *)
Definition row_body (Size : nat) {C R : nat} (m : ColorMatrix C R)
    (inputVector : list float) (row : nat) (result : list float) : list float :=
  if decide (C ≤ Size)%nat then
    for_loop 0 C (λ column result,
      add_assign row (at_ m row column * inputVector !!! column)%f32 result)
      result
  else
    let result :=
      for_loop 0 Size (λ column result,
        add_assign row (at_ m row column * inputVector !!! column)%f32 result)
        result in
    for_loop Size C (λ additionalColumn result,
      add_assign row (at_ m row additionalColumn) result)
      result.

Definition after_rows (Size : nat) {C R : nat} (m : ColorMatrix C R)
    (inputVector : list float) : list float :=
  for_loop 0 R (row_body Size m inputVector) (ColorComponents_default Size).

(** The identity matrix [{1,0,0; 0,1,0; 0,0,1}]. *)
Definition identity_matrix : ColorMatrix 3 3 :=
  mk [f1; f0; f0;
      f0; f1; f0;
      f0; f0; f1].

(** The matrix whose three rows are [{r, g, b}]. *)
Definition rows_of (r g b : float) : ColorMatrix 3 3 :=
  mk [r; g; b;
      r; g; b;
      r; g; b].

(** The matrix whose every row is [{0.2126f, 0.7152f, 0.0722f}]. *)
Definition luma_matrix : ColorMatrix 3 3 :=
  rows_of (lit 2126 10000) (lit 7152 10000) (lit 722 10000).

(** ** The vocabulary of the further properties *)

(** A zero of either sign. *)
Definition is_zero (x : float) : bool :=
  match x with S754_zero _ => true | _ => false end.

(** An infinity of either sign. *)
Definition is_infinity (x : float) : bool :=
  match x with S754_infinity _ => true | _ => false end.

(** A zero or a nonzero finite number: neither an infinity nor a NaN. *)
Definition finite_number (x : float) : bool :=
  match x with S754_zero _ | S754_finite _ _ _ => true | _ => false end.

(** A value [r] that is the number [x], and is [x] itself unless [x] is a
    zero. *)
Definition is_number (r x : float) : Prop :=
  same_number r x ∧ (is_zero x = false → r = x).

(** A square matrix with [1] on the diagonal and [0] elsewhere. *)
Definition identity_like {n : nat} (m : ColorMatrix n n) : Prop :=
  ∀ row column, (row < n)%nat → (column < n)%nat →
    at_ m row column = if decide (row = column) then f1 else f0.

(** A zero, or a finite number below [2^K] in absolute value. *)
Definition magnitude_below (K : Z) (x : float) : Prop :=
  match x with
  | S754_zero _ => True
  | S754_finite _ m e => (Z.pos (digits2_pos m) + e ≤ K)%Z
  | _ => False
  end.

(** A mantissa of at most 24 bits. *)
Definition mantissa_fits (x : float) : Prop :=
  match x with
  | S754_finite _ m _ => (Z.pos m < 2 ^ 24)%Z
  | _ => True
  end.

(** The operator [<=] of C++ on [float]. *)
Definition fle : float → float → bool := SFleb.

(** The matrix of the full sepia effect. *)
Definition sepia_matrix : ColorMatrix 3 3 :=
  mk [lit 393 1000; lit 769 1000; lit 189 1000;
      lit 349 1000; lit 686 1000; lit 168 1000;
      lit 272 1000; lit 534 1000; lit 131 1000].

(** * Properties *)

(** ** Loops *)

Section Loops.

Context {State : Type}.

Lemma for_loop_empty (lo hi : nat) (body : nat → State → State) (s : State) :
  (hi ≤ lo)%nat → for_loop lo hi body s = s.
Proof.
  intros Hle. unfold for_loop.
  replace (hi - lo)%nat with 0%nat by lia. reflexivity.
Qed.

Lemma for_loop_snoc (lo hi : nat) (body : nat → State → State) (s : State) :
  (lo ≤ hi)%nat →
  for_loop lo (S hi) body s = body hi (for_loop lo hi body s).
Proof.
  intros Hle. unfold for_loop.
  replace (S hi - lo)%nat with (S (hi - lo)) by lia.
  rewrite seq_S, fold_left_app. simpl.
  replace (lo + (hi - lo))%nat with hi by lia. reflexivity.
Qed.

(** An invariant that holds at [lo] and is kept by every iteration holds
    when the loop ends. *)
Lemma for_loop_invariant (P : nat → State → Prop) (lo hi : nat)
    (body : nat → State → State) (s : State) :
  (lo ≤ hi)%nat →
  P lo s →
  (∀ i t, (lo ≤ i < hi)%nat → P i t → P (S i) (body i t)) →
  P hi (for_loop lo hi body s).
Proof.
  intros Hle Hlo Hstep. induction hi as [|hi IH].
  - assert (lo = 0%nat) as -> by lia. rewrite for_loop_empty by lia. exact Hlo.
  - destruct (decide (lo = S hi)) as [->|Hne].
    + rewrite for_loop_empty by lia. exact Hlo.
    + rewrite for_loop_snoc by lia. apply Hstep; [lia|].
      apply IH; [lia|]. intros i t Hi. apply Hstep. lia.
Qed.

End Loops.

Lemma all_from_true (lo n : nat) (body : nat → bool) :
  all_from lo n body = true ↔ ∀ i, (lo ≤ i < lo + n)%nat → body i = true.
Proof.
  revert lo. induction n as [|n IH]; intros lo; simpl.
  - split; [intros _ i Hi; lia | reflexivity].
  - destruct (body lo) eqn:Hlo.
    + rewrite IH. split.
      * intros Hall i Hi. destruct (decide (i = lo)) as [->|Hne]; [exact Hlo|].
        apply Hall. lia.
      * intros Hall i Hi. apply Hall. lia.
    + split; [discriminate|]. intros Hall.
      rewrite <- Hlo. apply Hall. lia.
Qed.

(** ** Rounding to binary32 *)

Section Rounding.

Local Open Scope Z_scope.

Lemma digits2_pos_bounds (p : positive) :
  2 ^ (Z.pos (digits2_pos p) - 1) ≤ Z.pos p < 2 ^ Z.pos (digits2_pos p).
Proof.
  induction p as [p IH|p IH|]; simpl digits2_pos.
  - rewrite Pos2Z.inj_succ.
    replace (Z.succ (Z.pos (digits2_pos p)) - 1)
      with (Z.succ (Z.pos (digits2_pos p) - 1)) by lia.
    rewrite !Z.pow_succ_r by lia. lia.
  - rewrite Pos2Z.inj_succ.
    replace (Z.succ (Z.pos (digits2_pos p)) - 1)
      with (Z.succ (Z.pos (digits2_pos p) - 1)) by lia.
    rewrite !Z.pow_succ_r by lia. lia.
  - simpl. lia.
Qed.

Lemma digits2_pos_unique (p : positive) (k : Z) :
  2 ^ (k - 1) ≤ Z.pos p < 2 ^ k → Z.pos (digits2_pos p) = k.
Proof.
  intros [Hlo Hhi]. pose proof (digits2_pos_bounds p) as [Dlo Dhi].
  set (d := Z.pos (digits2_pos p)) in *.
  assert (0 < k) as Hk.
  { destruct (Z.lt_trichotomy k 0) as [Hn|[->|Hp]]; [|simpl in Hhi; lia|lia].
    rewrite Z.pow_neg_r in Hhi by lia. lia. }
  destruct (Z.lt_trichotomy d k) as [Hlt|[Heq|Hgt]]; [|done|].
  - assert (2 ^ d ≤ 2 ^ (k - 1)) by (apply Z.pow_le_mono_r; lia). lia.
  - assert (2 ^ k ≤ 2 ^ (d - 1)) by (apply Z.pow_le_mono_r; lia). lia.
Qed.

Lemma shr_m_of_loc (m : Z) (l : location) : shr_m (shr_record_of_loc m l) = m.
Proof. by destruct l as [|[]]. Qed.

Lemma shr_1_m (mrs : shr_record) :
  0 ≤ shr_m mrs → shr_m (shr_1 mrs) = shr_m mrs / 2.
Proof.
  destruct mrs as [m r s]. simpl. intros Hm.
  destruct m as [|[p|p|]|p]; cbn [shr_m]; try lia; try reflexivity.
  - apply Z.div_unique with 1; lia.
  - apply Z.div_unique with 0; lia.
Qed.

Lemma iter_shr_1_m (n : positive) (mrs : shr_record) :
  0 ≤ shr_m mrs →
  shr_m (SpecFloat.iter_pos shr_1 n mrs) = shr_m mrs / 2 ^ Z.pos n.
Proof.
  revert mrs. induction n as [n IH|n IH|]; intros mrs Hm;
    simpl SpecFloat.iter_pos.
  - assert (0 ≤ shr_m (shr_1 mrs)) as H1
      by (rewrite shr_1_m by done; apply Z.div_pos; lia).
    assert (0 ≤ shr_m (SpecFloat.iter_pos shr_1 n (shr_1 mrs))) as H2
      by (rewrite IH by done; apply Z.div_pos; lia).
    rewrite IH, IH, shr_1_m by done.
    rewrite !Z.div_div by lia. f_equal.
    replace (Z.pos n~1) with (Z.pos n + Z.pos n + 1) by lia.
    rewrite !Z.pow_add_r by lia. change (2 ^ 1) with 2. ring.
  - assert (0 ≤ shr_m (SpecFloat.iter_pos shr_1 n mrs)) as H2
      by (rewrite IH by done; apply Z.div_pos; lia).
    rewrite IH, IH by done.
    rewrite !Z.div_div by lia. f_equal.
    replace (Z.pos n~0) with (Z.pos n + Z.pos n) by lia.
    rewrite !Z.pow_add_r by lia. ring.
  - rewrite shr_1_m by done. reflexivity.
Qed.

Lemma shr_spec (mrs : shr_record) (e n : Z) :
  0 ≤ shr_m mrs →
  shr_m (shr mrs e n).1 = shr_m mrs / 2 ^ Z.max 0 n ∧
  (shr mrs e n).2 = e + Z.max 0 n.
Proof.
  intros Hm. destruct n as [|n|n]; simpl.
  - rewrite Z.div_1_r. lia.
  - rewrite iter_shr_1_m by done. split; [done|lia].
  - rewrite Z.div_1_r. lia.
Qed.

Lemma shr_fexp_spec (p : positive) (e : Z) (l : location) :
  let n := Z.max 0 (fexp prec emax (Z.pos (digits2_pos p) + e) - e) in
  shr_m (shr_fexp prec emax (Z.pos p) e l).1 = Z.pos p / 2 ^ n ∧
  (shr_fexp prec emax (Z.pos p) e l).2 = e + n.
Proof.
  intros n. unfold shr_fexp. simpl Zdigits2.
  pose proof (shr_spec (shr_record_of_loc (Z.pos p) l) e
                (fexp prec emax (Z.pos (digits2_pos p) + e) - e)) as Hs.
  rewrite shr_m_of_loc in Hs. apply Hs. lia.
Qed.

Lemma round_nearest_even_bounds (m : Z) (l : location) :
  m ≤ round_nearest_even m l ≤ m + 1.
Proof. destruct l as [|[]]; simpl; try lia. destruct (Z.even m); lia. Qed.

Lemma fexp_eq (e : Z) : fexp prec emax e = Z.max (e - 24) (-149).
Proof. reflexivity. Qed.

(** Shifting to the exponent [fexp] keeps a positive mantissa positive when
    the exponent is not below the least one. *)
Lemma shr_fexp_pos (p : positive) (e : Z) (l : location) :
  -149 ≤ e →
  0 < shr_m (shr_fexp prec emax (Z.pos p) e l).1 ∧
  -149 ≤ (shr_fexp prec emax (Z.pos p) e l).2.
Proof.
  intros He. destruct (shr_fexp_spec p e l) as [-> ->].
  rewrite fexp_eq. pose proof (digits2_pos_bounds p) as [Dlo _].
  set (d := Z.pos (digits2_pos p)) in *.
  set (n := Z.max 0 (Z.max (d + e - 24) (-149) - e)).
  assert (0 ≤ n ≤ d - 1) as Hn by lia.
  split; [|lia].
  assert (2 ^ n ≤ 2 ^ (d - 1)) by (apply Z.pow_le_mono_r; lia).
  assert (0 < 2 ^ n) by (apply Z.pow_pos_nonneg; lia).
  apply Z.lt_le_trans with 1; [lia|].
  apply Z.div_le_lower_bound; lia.
Qed.

Lemma binary_round_aux_eq (s : bool) (m : Z) (e : Z) (l : location) :
  let r1 := shr_fexp prec emax m e l in
  let m2 := round_nearest_even (shr_m r1.1) (loc_of_shr_record r1.1) in
  let r2 := shr_fexp prec emax m2 r1.2 loc_Exact in
  binary_round_aux prec emax s m e l =
  match shr_m r2.1 with
  | Z0 => S754_zero s
  | Z.pos m => if r2.2 <=? emax - prec then S754_finite s m r2.2
               else S754_infinity s
  | Z.neg _ => S754_nan
  end.
Proof.
  cbv zeta. unfold binary_round_aux.
  destruct (shr_fexp prec emax m e l) as [mrs' e']. simpl.
  destruct (shr_fexp prec emax _ e' loc_Exact) as [mrs'' e'']. reflexivity.
Qed.

Lemma binary_round_aux_nonzero (s : bool) (p : positive) (e : Z) (l : location) :
  -149 ≤ e → signed_nonzero s (binary_round_aux prec emax s (Z.pos p) e l).
Proof.
  intros He. rewrite binary_round_aux_eq. cbv zeta.
  destruct (shr_fexp_pos p e l He) as [Hm1 He1].
  set (r1 := shr_fexp prec emax (Z.pos p) e l) in *.
  pose proof (round_nearest_even_bounds (shr_m r1.1) (loc_of_shr_record r1.1))
    as Hm2.
  destruct (round_nearest_even _ _) as [|p2|p2]; [lia| |lia].
  destruct (shr_fexp_pos p2 r1.2 loc_Exact He1) as [Hm3 _].
  set (r2 := shr_fexp prec emax (Z.pos p2) r1.2 loc_Exact) in *.
  destruct (shr_m r2.1) as [|m3|m3]; [lia| |lia].
  destruct (r2.2 <=? emax - prec); [right; eauto | by left].
Qed.

Lemma shl_align_spec (p : positive) (e e' : Z) :
  (shl_align p e e').2 = Z.min e e' ∧
  Z.pos (shl_align p e e').1 = Z.pos p * 2 ^ (e - Z.min e e').
Proof.
  unfold shl_align. destruct (e' - e) as [|d|d] eqn:Hd; simpl.
  - replace (e - Z.min e e') with 0 by lia. simpl. lia.
  - replace (e - Z.min e e') with 0 by lia. simpl. lia.
  - split; [lia|].
    replace (e - Z.min e e') with (Z.pos d) by lia.
    rewrite (Pos.iter_swap_gen _ _ Z.pos xO (Z.mul 2)) by reflexivity.
    rewrite <- Z.shiftl_mul_pow2 by lia. reflexivity.
Qed.

Lemma digits2_pos_shift (p q : positive) (k : Z) :
  0 ≤ k → Z.pos q = Z.pos p * 2 ^ k →
  Z.pos (digits2_pos q) = Z.pos (digits2_pos p) + k.
Proof.
  intros Hk Hq. apply digits2_pos_unique. rewrite Hq.
  pose proof (digits2_pos_bounds p) as [Dlo Dhi].
  replace (Z.pos (digits2_pos p) + k - 1)
    with (Z.pos (digits2_pos p) - 1 + k) by lia.
  rewrite !Z.pow_add_r by lia.
  assert (0 < 2 ^ k) by (apply Z.pow_pos_nonneg; lia). nia.
Qed.

Lemma binary_round_nonzero (s : bool) (p : positive) (e : Z) :
  -149 ≤ e → signed_nonzero s (binary_round prec emax s p e).
Proof.
  intros He. unfold binary_round.
  destruct (shl_align_spec p e (fexp prec emax (Z.pos (digits2_pos p) + e)))
    as [He' _].
  destruct (shl_align _ _ _) as [mz ez]. simpl in He'.
  apply binary_round_aux_nonzero. rewrite He', fexp_eq. lia.
Qed.

Lemma binary_round_aux_at_least_one (p : positive) (e : Z) (l : location) :
  24 ≤ Z.pos (digits2_pos p) → 1 ≤ Z.pos (digits2_pos p) + e →
  at_least_one (binary_round_aux prec emax false (Z.pos p) e l).
Proof.
  intros Hd HE. rewrite binary_round_aux_eq. cbv zeta.
  destruct (shr_fexp_spec p e l) as [Hm1 He1].
  set (r1 := shr_fexp prec emax (Z.pos p) e l) in *.
  pose proof (digits2_pos_bounds p) as [Dlo Dhi].
  set (d := Z.pos (digits2_pos p)) in *.
  rewrite fexp_eq in Hm1, He1.
  replace (Z.max 0 (Z.max (d + e - 24) (-149) - e)) with (d - 24)
    in Hm1, He1 by lia.
  assert (2 ^ 23 ≤ shr_m r1.1 < 2 ^ 24) as Hb1.
  { rewrite Hm1.
    assert (0 < 2 ^ (d - 24)) by (apply Z.pow_pos_nonneg; lia).
    assert (2 ^ (d - 1) = 2 ^ (d - 24) * 2 ^ 23) as E1
      by (rewrite <- Z.pow_add_r by lia; f_equal; lia).
    assert (2 ^ d = 2 ^ (d - 24) * 2 ^ 24) as E2
      by (rewrite <- Z.pow_add_r by lia; f_equal; lia).
    split.
    - apply Z.div_le_lower_bound; lia.
    - apply Z.div_lt_upper_bound; lia. }
  pose proof (round_nearest_even_bounds (shr_m r1.1) (loc_of_shr_record r1.1))
    as Hm2.
  destruct (round_nearest_even _ _) as [|p2|p2]; [lia| |lia].
  destruct (shr_fexp_spec p2 r1.2 loc_Exact) as [Hm3 He3].
  set (r2 := shr_fexp prec emax (Z.pos p2) r1.2 loc_Exact) in *.
  rewrite fexp_eq in Hm3, He3.
  assert (2 ^ 23 ≤ shr_m r2.1 ∧ -23 ≤ r2.2) as [Hb3 Hb3'].
  { destruct (decide (Z.pos p2 < 2 ^ 24)) as [Hlt|Hge].
    - assert (Z.pos (digits2_pos p2) = 24) as Hd2
        by (apply digits2_pos_unique; change (24 - 1) with 23; lia).
      rewrite Hd2 in Hm3, He3.
      replace (Z.max 0 (Z.max (24 + r1.2 - 24) (-149) - r1.2)) with 0
        in Hm3, He3 by lia.
      rewrite Hm3, He3. change (2 ^ 0) with 1. rewrite Z.div_1_r. lia.
    - assert (Z.pos p2 = 2 ^ 24) as Hp2 by lia.
      assert (Z.pos (digits2_pos p2) = 25) as Hd2
        by (apply digits2_pos_unique; rewrite Hp2; change (25 - 1) with 24;
            split; [lia | apply Z.pow_lt_mono_r; lia]).
      rewrite Hd2 in Hm3, He3.
      replace (Z.max 0 (Z.max (25 + r1.2 - 24) (-149) - r1.2)) with 1
        in Hm3, He3 by lia.
      rewrite Hm3, He3, Hp2. change (2 ^ 24 / 2 ^ 1) with (2 ^ 23). lia. }
  destruct (shr_m r2.1) as [|m3|m3]; [lia| |lia].
  destruct (r2.2 <=? emax - prec); [right; eauto | by left].
Qed.

Lemma binary_round_at_least_one (p : positive) (e : Z) :
  1 ≤ Z.pos (digits2_pos p) + e →
  at_least_one (binary_round prec emax false p e).
Proof.
  intros HE. unfold binary_round.
  set (d := Z.pos (digits2_pos p)) in *.
  destruct (shl_align_spec p e (fexp prec emax (d + e))) as [He' Hm'].
  rewrite fexp_eq in He', Hm'.
  destruct (shl_align p e _) as [mz ez]. simpl in He', Hm'.
  assert (Z.pos (digits2_pos mz) =
          d + (e - Z.min e (Z.max (d + e - 24) (-149)))) as Hdz
    by (apply digits2_pos_shift; [lia | exact Hm']).
  apply binary_round_aux_at_least_one; lia.
Qed.

Lemma SFsub_finite (sx : bool) (mx : positive) (ex : Z)
    (sy : bool) (my : positive) (ey : Z) :
  (S754_finite sx mx ex - S754_finite sy my ey)%f32 =
  binary_normalize prec emax
    (cond_Zopp sx (Z.pos mx * 2 ^ (ex - Z.min ex ey)) -
     cond_Zopp sy (Z.pos my * 2 ^ (ey - Z.min ex ey)))
    (Z.min ex ey) false.
Proof.
  unfold fsub, SFsub. cbv zeta.
  destruct (shl_align_spec mx ex (Z.min ex ey)) as [_ ->].
  destruct (shl_align_spec my ey (Z.min ex ey)) as [_ ->].
  replace (Z.min ex (Z.min ex ey)) with (Z.min ex ey) by lia.
  replace (Z.min ey (Z.min ex ey)) with (Z.min ex ey) by lia.
  reflexivity.
Qed.

Lemma fsub_one_negative (my : positive) (ey : Z) :
  at_least_one (f1 - S754_finite true my ey)%f32.
Proof.
  unfold f1. rewrite SFsub_finite. simpl cond_Zopp.
  set (ez := Z.min (-23) ey).
  assert (0 < 2 ^ (ey - ez)) as Hy by (apply Z.pow_pos_nonneg; lia).
  assert (8388608 * 2 ^ (-23 - ez) = 2 ^ (- ez)) as Hone.
  { change 8388608 with (2 ^ 23). rewrite <- Z.pow_add_r by lia. f_equal. lia. }
  rewrite Hone.
  assert (0 < 2 ^ (- ez)) as Hx by (apply Z.pow_pos_nonneg; lia).
  destruct (2 ^ (- ez) - - (Z.pos my * 2 ^ (ey - ez))) as [|p|p] eqn:Hp;
    [lia| |lia].
  simpl binary_normalize. apply binary_round_at_least_one.
  pose proof (digits2_pos_bounds p) as [_ Dhi].
  assert (2 ^ (- ez) < 2 ^ Z.pos (digits2_pos p)) as Hlt by lia.
  apply Z.pow_lt_mono_r_iff in Hlt; lia.
Qed.

Lemma bounded_normal (m : positive) (e : Z) :
  bounded prec emax m e = true → -149 < e → 2 ^ 23 ≤ Z.pos m.
Proof.
  unfold bounded, canonical_mantissa. rewrite fexp_eq.
  intros Hb He. apply andb_prop in Hb as [Hc _]. apply Z.eqb_eq in Hc.
  pose proof (digits2_pos_bounds m) as [Dlo _].
  replace (Z.pos (digits2_pos m) - 1) with 23 in Dlo by lia. exact Dlo.
Qed.

Lemma fsub_one_above (my : positive) (ey : Z) :
  bounded prec emax my ey = true →
  flt f1 (S754_finite false my ey) = true →
  signed_nonzero true (f1 - S754_finite false my ey)%f32.
Proof.
  intros Hb Hlt. unfold f1 in *. rewrite SFsub_finite. simpl cond_Zopp.
  unfold flt, SFltb, SFcompare in Hlt.
  assert (-23 ≤ ey ∧ 8388608 < Z.pos my * 2 ^ (ey + 23)) as [He Hgt].
  { destruct (Z.compare_spec (-23) ey) as [Heq|Hl|Hg]; [| |discriminate].
    - subst ey. split; [lia|]. change (2 ^ (-23 + 23)) with 1.
      destruct (Pos.compare_cont Eq 8388608 my) eqn:Hc; try discriminate.
      change (Pos.compare_cont Eq 8388608 my)
        with (8388608 ?= my)%positive in Hc.
      assert (8388608 < my)%positive by (by apply Pos.compare_lt_iff). lia.
    - split; [lia|]. pose proof (bounded_normal my ey Hb ltac:(lia)) as Hn.
      change (2 ^ 23) with 8388608 in Hn.
      assert (2 ^ 1 ≤ 2 ^ (ey + 23)) by (apply Z.pow_le_mono_r; lia).
      change (2 ^ 1) with 2 in *. nia. }
  replace (Z.min (-23) ey) with (-23) by lia.
  change (8388608 * 2 ^ (-23 - -23)) with 8388608.
  replace (ey - -23) with (ey + 23) by lia.
  destruct (8388608 - Z.pos my * 2 ^ (ey + 23)) as [|p|p] eqn:Hp; [lia|lia|].
  simpl binary_normalize. apply binary_round_nonzero. lia.
Qed.

Lemma clamp_at_least_one (r : float) :
  at_least_one r → clamp r f0 f1 = f1.
Proof.
  intros [->|(m & e & -> & Hm & He)]; [reflexivity|].
  unfold clamp, f0, f1, flt, SFltb, SFcompare.
  destruct (Z.compare_spec (-23) e) as [Heq|Hl|Hg]; [subst e|reflexivity|lia].
  change (Pos.compare_cont Eq 8388608 m) with (8388608 ?= m)%positive.
  destruct (Pos.compare_spec 8388608 m) as [Heq|Hl|Hg];
    [subst m; reflexivity | reflexivity |].
  change (2 ^ 23) with 8388608 in Hm. lia.
Qed.

Lemma clamp_negative (r : float) :
  signed_nonzero true r → clamp r f0 f1 = f0.
Proof. by intros [->|(m & e & ->)]. Qed.

(** Clamping [1 - amount] gives the same as clamping [1 - clamp(amount)]. *)
Lemma one_minus_clamp (amount : float) :
  valid amount = true →
  clamp (f1 - amount)%f32 f0 f1 = clamp (f1 - clamp amount f0 f1)%f32 f0 f1.
Proof.
  intros Hv. destruct amount as [s|[]| |[] m e]; try reflexivity.
  - change (clamp (S754_finite true m e) f0 f1) with f0.
    rewrite (clamp_at_least_one _ (fsub_one_negative m e)). reflexivity.
  - unfold clamp at 3.
    change (flt (S754_finite false m e) f0) with false. cbv iota.
    destruct (flt f1 (S754_finite false m e)) eqn:Hlt; [|reflexivity].
    rewrite (clamp_negative _ (fsub_one_above m e Hv Hlt)). reflexivity.
Qed.

(** Multiplying by [1.0f] changes no value of the type. *)
Lemma fmul_one_r (x : float) : valid x = true → (x * f1)%f32 = x.
Proof.
  destruct x as [[]|[]| |s m e]; try reflexivity.
  unfold valid, valid_binary, bounded, canonical_mantissa.
  intros Hb. apply andb_prop in Hb as [Hc He].
  apply Z.eqb_eq in Hc. apply Z.leb_le in He.
  unfold fmul, f1, SFmul. rewrite Pos.mul_comm, xorb_false_r.
  rewrite binary_round_aux_eq. cbv zeta.
  assert (shr_fexp prec emax (Z.pos (8388608 * m)) (e + -23) loc_Exact =
          ({| shr_m := Z.pos m; shr_r := false; shr_s := false |}, e)) as ->.
  { unfold shr_fexp, Zdigits2.
    replace (Z.pos (digits2_pos (8388608 * m)))
      with (Z.pos (digits2_pos m) + 23)
      by (symmetry; apply digits2_pos_shift;
          [lia | change (2 ^ 23) with 8388608; lia]).
    replace (Z.pos (digits2_pos m) + 23 + (e + -23))
      with (Z.pos (digits2_pos m) + e) by lia.
    rewrite Hc. replace (e - (e + -23)) with 23 by lia.
    unfold shr. f_equal. lia. }
  simpl. unfold shr_fexp. simpl Zdigits2. rewrite Hc, Z.sub_diag. simpl.
  apply Z.leb_le in He. by rewrite He.
Qed.

(** *** No operation on numbers makes a NaN out of a finite operand *)

Lemma shr_fexp_nonneg (m e : Z) (l : location) :
  0 ≤ m → 0 ≤ shr_m (shr_fexp prec emax m e l).1.
Proof.
  intros Hm. unfold shr_fexp.
  destruct (shr_spec (shr_record_of_loc m l) e
              (fexp prec emax (Zdigits2 m + e) - e)) as [-> _];
    rewrite shr_m_of_loc; [done|].
  apply Z.div_pos; [done|]. apply Z.pow_pos_nonneg; lia.
Qed.

Lemma binary_round_aux_not_nan (s : bool) (m e : Z) (l : location) :
  0 ≤ m → is_nan (binary_round_aux prec emax s m e l) = false.
Proof.
  intros Hm. rewrite binary_round_aux_eq. cbv zeta.
  pose proof (shr_fexp_nonneg m e l Hm) as Hm1.
  set (r1 := shr_fexp prec emax m e l) in *.
  pose proof (round_nearest_even_bounds (shr_m r1.1) (loc_of_shr_record r1.1))
    as Hm2.
  set (m2 := round_nearest_even (shr_m r1.1) (loc_of_shr_record r1.1)) in *.
  pose proof (shr_fexp_nonneg m2 r1.2 loc_Exact ltac:(lia)) as Hm3.
  set (r2 := shr_fexp prec emax m2 r1.2 loc_Exact) in *.
  destruct (shr_m r2.1) as [|m3|m3]; [done| |lia].
  by destruct (r2.2 <=? emax - prec).
Qed.

Lemma binary_normalize_not_nan (m e : Z) (sz : bool) :
  is_nan (binary_normalize prec emax m e sz) = false.
Proof.
  destruct m as [|p|p]; [done| |]; simpl; unfold binary_round;
    destruct (shl_align _ _ _); by apply binary_round_aux_not_nan.
Qed.

Lemma fadd_not_nan (x y : float) :
  is_finite x = true → is_nan y = false → is_nan (x + y)%f32 = false.
Proof.
  destruct x as [| | |sx mx ex]; try discriminate. intros _.
  destruct y as [sy|sy| |sy my ey]; try done. intros _.
  apply binary_normalize_not_nan.
Qed.

Lemma fsub_not_nan (x y : float) :
  is_finite x = true → is_nan y = false → is_nan (x - y)%f32 = false.
Proof.
  destruct x as [| | |sx mx ex]; try discriminate. intros _.
  destruct y as [sy|sy| |sy my ey]; try done. intros _.
  apply binary_normalize_not_nan.
Qed.

Lemma fmul_not_nan (x y : float) :
  is_finite x = true → is_nan y = false → is_nan (x * y)%f32 = false.
Proof.
  destruct x as [| | |sx mx ex]; try discriminate. intros _.
  destruct y as [sy|sy| |sy my ey]; try done. intros _.
  by apply binary_round_aux_not_nan.
Qed.

Lemma clamp_not_nan (v : float) :
  is_nan v = false → is_nan (clamp v f0 f1) = false.
Proof. intros Hv. unfold clamp. by repeat destruct (flt _ _). Qed.

Lemma feq_refl (x : float) : is_nan x = false → feq x x = true.
Proof.
  destruct x as [s|[]| |[] m e]; try done; intros _;
    unfold feq, SFeqb, SFcompare;
    by rewrite Z.compare_refl, Pos.compare_cont_refl.
Qed.

End Rounding.

(** ** Equality of matrices *)

Lemma fne_feq (x y : float) : fne x y = false ↔ feq x y = true.
Proof. unfold fne. destruct (feq x y); simpl; split; congruence. Qed.

Lemma operator_eq_true {C R : nat} (a b : ColorMatrix C R) :
  operator_eq a b = true ↔
  ∀ row column, (row < R)%nat → (column < C)%nat →
    feq (at_ a row column) (at_ b row column) = true.
Proof.
  unfold operator_eq. rewrite all_from_true. split.
  - intros Hall row column Hrow Hcol.
    specialize (Hall row ltac:(lia)). rewrite all_from_true in Hall.
    specialize (Hall column ltac:(lia)).
    apply fne_feq. destruct (fne _ _); congruence.
  - intros Hall row Hrow. apply all_from_true. intros column Hcol.
    rewrite (proj2 (fne_feq _ _)); [reflexivity|]. apply Hall; lia.
Qed.

Lemma at_with_coefficient {C R : nat} (a : ColorMatrix C R) row column x :
  well_sized a → (row < R)%nat → (column < C)%nat →
  at_ (with_coefficient a row column x) row column = x.
Proof.
  unfold well_sized, at_, with_coefficient. simpl. intros Hlen Hrow Hcol.
  apply list_lookup_total_insert_eq. rewrite Hlen. nia.
Qed.

(** C7: for matrices of the same dimensions, [operator==] returns true
    exactly when at every row below [RowCount] and column below
    [ColumnCount] the two coefficients compare equal under the [==] of
    [float] (a comparison of values, with no tolerance: zeros of either sign
    are equal, a NaN is equal to nothing), and [operator!=] is its negation;
    so replacing one coefficient of a matrix by a value that [!=]
    distinguishes from it gives a matrix unequal to the original. *)
Theorem operator_eq_exact {C R : nat} (a b : ColorMatrix C R) :
  (operator_eq a b = true ↔
     ∀ row column, (row < R)%nat → (column < C)%nat →
       feq (at_ a row column) (at_ b row column) = true) ∧
  operator_ne a b = negb (operator_eq a b) ∧
  (∀ row column x,
     well_sized a → (row < R)%nat → (column < C)%nat →
     fne (at_ a row column) x = true →
     operator_eq a (with_coefficient a row column x) = false ∧
     operator_ne a (with_coefficient a row column x) = true).
Proof.
  split; [apply operator_eq_true|]. split; [reflexivity|].
  intros row column x Hsz Hrow Hcol Hne.
  assert (operator_eq a (with_coefficient a row column x) = false) as Heq.
  { destruct (operator_eq _ _) eqn:Heq; [|reflexivity].
    rewrite operator_eq_true in Heq. specialize (Heq row column Hrow Hcol).
    rewrite at_with_coefficient in Heq by assumption.
    apply fne_feq in Heq. congruence. }
  unfold operator_ne. rewrite Heq. split; reflexivity.
Qed.

Lemma operator_eq_exact_witness :
  let a : ColorMatrix 2 2 := mk [f1; f0; f0; f1] in
  operator_eq a (with_coefficient a 1 0 f1) = false ∧
  operator_ne a (with_coefficient a 1 0 f1) = true.
Proof.
  intros a.
  apply (proj2 (proj2 (operator_eq_exact a a)) 1%nat 0%nat f1);
    [reflexivity | lia | lia | reflexivity].
Defined.

(** The comparison is that of the values: a matrix that holds a NaN is
    unequal to itself, and the sign of a zero makes no difference. *)
Lemma operator_eq_nan :
  let a : ColorMatrix 1 1 := mk [S754_nan] in
  operator_eq a a = false ∧ operator_ne a a = true.
Proof. split; reflexivity. Qed.

Lemma operator_eq_zero_sign :
  operator_eq (mk [S754_zero false] : ColorMatrix 1 1) (mk [S754_zero true]) = true.
Proof. reflexivity. Qed.

(** ** The transform *)

Section TransformProofs.

Variable Size : nat.
Context {C R : nat}.
Variable m : ColorMatrix C R.
Variable inputVector : list float.

Lemma add_assign_fold (row : nat) (g : nat → float) (cols : list nat)
    (result : list float) :
  (row < length result)%nat →
  fold_left (λ s c, add_assign row (g c) s) cols result =
  <[row := sum_from (result !!! row) (map g cols)]> result.
Proof.
  revert result. induction cols as [|c cols IH]; intros result Hrow; simpl.
  - symmetry. apply list_insert_id. by apply list_lookup_lookup_total_lt.
  - rewrite IH by (unfold add_assign; by rewrite length_insert).
    unfold add_assign.
    rewrite list_lookup_total_insert_eq by assumption.
    by rewrite list_insert_insert_eq.
Qed.

Lemma add_assign_loop (row lo hi : nat) (g : nat → float) (result : list float) :
  (row < length result)%nat →
  for_loop lo hi (λ c s, add_assign row (g c) s) result =
  <[row := sum_from (result !!! row) (map g (seq lo (hi - lo)))]> result.
Proof. intros Hrow. unfold for_loop. by apply add_assign_fold. Qed.

Lemma row_body_eq (row : nat) (result : list float) :
  (row < length result)%nat →
  row_body Size m inputVector row result =
  <[row := sum_from (result !!! row) (row_terms Size m inputVector row)]> result.
Proof.
  intros Hrow. unfold row_body, row_terms. destruct (decide (C ≤ Size)%nat).
  - rewrite add_assign_loop by assumption.
    unfold products. by rewrite Nat.sub_0_r.
  - cbv zeta. rewrite (add_assign_loop row 0 Size) by assumption.
    rewrite add_assign_loop by (by rewrite length_insert).
    rewrite list_lookup_total_insert_eq by assumption.
    rewrite list_insert_insert_eq.
    unfold sum_from, products, coefficients.
    by rewrite fold_left_app, Nat.sub_0_r.
Qed.

Lemma after_rows_spec :
  (R ≤ Size)%nat →
  length (after_rows Size m inputVector) = Size ∧
  ∀ row, (row < R)%nat →
    after_rows Size m inputVector !!! row = sum_from f0 (row_terms Size m inputVector row).
Proof.
  intros HR. unfold after_rows.
  set (P := λ (n : nat) (result : list float),
       length result = Size ∧
       (∀ row, (row < n)%nat →
          result !!! row = sum_from f0 (row_terms Size m inputVector row)) ∧
       (∀ j, (n ≤ j < Size)%nat → result !!! j = f0)).
  assert (P R (for_loop 0 R (row_body Size m inputVector)
                 (ColorComponents_default Size)))
    as (Hlen & Hdone & _); [|done].
  apply for_loop_invariant; [lia | |].
  - unfold ColorComponents_default.
    repeat split; [apply length_replicate | intros; lia |].
    intros j Hj. apply lookup_total_replicate_2. lia.
  - intros i t Hi (Hlen & Hdone & Htodo).
    rewrite row_body_eq by lia.
    repeat split; [by rewrite length_insert | |].
    + intros row Hrow. destruct (decide (row = i)) as [->|Hne].
      * rewrite list_lookup_total_insert_eq by lia.
        by rewrite Htodo by lia.
      * rewrite list_lookup_total_insert_ne by done. apply Hdone. lia.
    + intros j Hj. rewrite list_lookup_total_insert_ne by lia.
      apply Htodo. lia.
Qed.

Lemma transformedColorComponents_eq :
  transformedColorComponents Size m inputVector =
  if decide (R < Size)%nat then
    for_loop R Size (λ additionalRow result,
      <[additionalRow := inputVector !!! additionalRow]> result)
      (after_rows Size m inputVector)
  else after_rows Size m inputVector.
Proof. reflexivity. Qed.

Lemma transformed_spec :
  (R ≤ Size)%nat →
  length (transformedColorComponents Size m inputVector) = Size ∧
  (∀ row, (row < R)%nat →
     transformedColorComponents Size m inputVector !!! row =
     sum_from f0 (row_terms Size m inputVector row)) ∧
  (∀ i, (R ≤ i < Size)%nat →
     transformedColorComponents Size m inputVector !!! i = inputVector !!! i).
Proof.
  intros HR. rewrite transformedColorComponents_eq.
  destruct (after_rows_spec HR) as [Hlen Hrows].
  destruct (decide (R < Size)%nat) as [Hlt|Hge].
  - set (P := λ (n : nat) (result : list float),
         length result = Size ∧
         (∀ row, (row < R)%nat →
            result !!! row = sum_from f0 (row_terms Size m inputVector row)) ∧
         (∀ i, (R ≤ i < n)%nat → result !!! i = inputVector !!! i)).
    apply (for_loop_invariant P); [lia | |].
    + repeat split; [done | done | intros; lia].
    + intros i t Hi (Hl & Hr & Hp).
      repeat split; [by rewrite length_insert | |].
      * intros row Hrow. rewrite list_lookup_total_insert_ne by lia. by apply Hr.
      * intros j Hj. destruct (decide (j = i)) as [->|Hne].
        -- by rewrite list_lookup_total_insert_eq by lia.
        -- rewrite list_lookup_total_insert_ne by done. apply Hp. lia.
  - repeat split; [done | done | intros; lia].
Qed.

End TransformProofs.

Lemma fadd_zero_l (y : float) :
  y ≠ S754_zero true → (f0 + y)%f32 = y.
Proof. intros Hy. destruct y as [[]| | |]; try reflexivity. congruence. Qed.

Lemma same_number_affine (p b : float) :
  same_number (f0 + p + b)%f32 (p + b)%f32.
Proof.
  destruct (decide (p = S754_zero true)) as [->|Hp].
  - destruct b as [[]| | |]; unfold same_number; cbn; auto 6.
  - rewrite fadd_zero_l by assumption. by left.
Qed.

(** C4: when the matrix has no more columns than the vector has components,
    the component [row] of the result, for every row of the matrix, is the
    sum over the columns [c] in [[0, ColumnCount)] of
    [at(row, c) * inputVector[c]], accumulated from [0] in the order of the
    columns: the product of the matrix with the first [ColumnCount]
    components of the vector. *)
Theorem transformed_columns_within_vector (Size : nat) {C R : nat}
    (m : ColorMatrix C R) (inputVector : list float) (row : nat) :
  (C ≤ Size)%nat → (R ≤ Size)%nat → (row < R)%nat →
  transformedColorComponents Size m inputVector !!! row =
  sum_from f0 (products m inputVector row C).
Proof.
  intros HC HR Hrow.
  destruct (transformed_spec Size m inputVector HR) as (_ & Hrows & _).
  rewrite Hrows by assumption. unfold row_terms.
  by destruct (decide (C ≤ Size)%nat).
Qed.

Lemma transformed_columns_within_vector_witness :
  transformedColorComponents 4 (grayscaleColorMatrix f1)
    [f1; f1; f0; lit 1 2] !!! 1%nat =
  sum_from f0 (products (grayscaleColorMatrix f1) [f1; f1; f0; lit 1 2] 1 3).
Proof.
  apply (transformed_columns_within_vector 4 (grayscaleColorMatrix f1)); lia.
Defined.

Lemma coefficients_times_one_eq {C R : nat} (m : ColorMatrix C R)
    (row lo hi : nat) :
  (∀ c, (lo ≤ c < hi)%nat → valid (at_ m row c) = true) →
  coefficients_times_one m row lo hi = coefficients m row lo hi.
Proof.
  intros Hv. unfold coefficients_times_one, coefficients.
  apply map_ext_in. intros c Hc. apply in_seq in Hc.
  apply fmul_one_r, Hv. lia.
Qed.

(** C3: when the matrix has more columns than the vector has components,
    the component [row] of the result, for every row of the matrix, is the
    sum over the columns [c] in [[0, Size)] of [at(row, c) * inputVector[c]],
    accumulated from [0] in the order of the columns, to which the
    coefficients [at(row, c)] of the columns [c] in [[Size, ColumnCount)] are
    then added one after the other; adding each of these coefficients is
    adding its product with the constant [1.0f].  For the matrix [[a, b]] of
    one row and a vector of the single component [x] the result is
    [0 + a*x + b], the same number as [a*x + b]. *)
Theorem transformed_columns_beyond_vector (Size : nat) {C R : nat}
    (m : ColorMatrix C R) (inputVector : list float) :
  (Size < C)%nat → (R ≤ Size)%nat →
  (∀ row, (row < R)%nat →
     transformedColorComponents Size m inputVector !!! row =
       sum_from (sum_from f0 (products m inputVector row Size))
                (coefficients m row Size C) ∧
     ((∀ c, (Size ≤ c < C)%nat → valid (at_ m row c) = true) →
      transformedColorComponents Size m inputVector !!! row =
        sum_from (sum_from f0 (products m inputVector row Size))
                 (coefficients_times_one m row Size C))) ∧
  (∀ a b x : float,
     transformedColorComponents 1 (mk [a; b] : ColorMatrix 2 1) [x] =
       [(f0 + a * x + b)%f32] ∧
     same_number
       (transformedColorComponents 1 (mk [a; b] : ColorMatrix 2 1) [x] !!! 0%nat)
       (a * x + b)%f32).
Proof.
  intros HC HR. split.
  - intros row Hrow.
    destruct (transformed_spec Size m inputVector HR) as (_ & Hrows & _).
    rewrite Hrows by assumption. unfold row_terms.
    destruct (decide (C ≤ Size)%nat); [lia|].
    assert (sum_from f0 (products m inputVector row Size ++
                           coefficients m row Size C) =
            sum_from (sum_from f0 (products m inputVector row Size))
                     (coefficients m row Size C)) as ->
      by apply fold_left_app.
    split; [reflexivity|].
    intros Hv. by rewrite coefficients_times_one_eq.
  - intros a b x. split; [reflexivity|]. apply same_number_affine.
Qed.

Lemma transformed_columns_beyond_vector_witness :
  let m : ColorMatrix 3 1 := mk [lit 1 2; lit 1 4; lit 1 8] in
  transformedColorComponents 1 m [lit 1 2] !!! 0%nat =
  sum_from (sum_from f0 (products m [lit 1 2] 0 1)) (coefficients m 0 1 3).
Proof.
  intros m.
  refine (proj1 (proj1 (transformed_columns_beyond_vector 1 m [lit 1 2] _ _)
                   0%nat _)); lia.
Defined.

(** C5: when the matrix has fewer rows than the vector has components, every
    component of the result at an index [i] in [[RowCount, Size)] is the
    component [i] of the input, unchanged. *)
Theorem transformed_components_beyond_rows (Size : nat) {C R : nat}
    (m : ColorMatrix C R) (inputVector : list float) (i : nat) :
  (R < Size)%nat → (R ≤ i < Size)%nat →
  transformedColorComponents Size m inputVector !!! i = inputVector !!! i.
Proof.
  intros HR Hi.
  destruct (transformed_spec Size m inputVector ltac:(lia)) as (_ & _ & Hrest).
  by apply Hrest.
Qed.

Lemma transformed_components_beyond_rows_witness :
  transformedColorComponents 4 (grayscaleColorMatrix f1)
    [f1; f1; f0; lit 1 2] !!! 3%nat = lit 1 2.
Proof.
  apply (transformed_components_beyond_rows 4 (grayscaleColorMatrix f1)
           [f1; f1; f0; lit 1 2] 3); lia.
Defined.

(** ** Composition *)

Lemma applyMatricesToColorComponents_fold (Size : nat) (components : list float)
    (matrix : AnyMatrix) (matrices : list AnyMatrix) :
  applyMatricesToColorComponents Size components matrix matrices =
  fold_left (λ v m, transformed Size m v) (matrix :: matrices) components.
Proof.
  revert components matrix.
  induction matrices as [|next rest IH]; intros components matrix.
  - reflexivity.
  - simpl. by rewrite IH.
Qed.

(** C6: applying two matrices through [applyMatricesToColorComponents]
    returns exactly the vector obtained by transforming with the first
    matrix and then transforming the result with the second. *)
Theorem applyMatrices_two (Size : nat) (v : list float)
    {C1 R1 C2 R2 : nat} (M1 : ColorMatrix C1 R1) (M2 : ColorMatrix C2 R2) :
  applyMatricesToColorComponents Size v (any M1) [any M2] =
  transformedColorComponents Size M2 (transformedColorComponents Size M1 v).
Proof. reflexivity. Qed.

(** ** The filter matrices at the ends of their range *)

(** The literals of the factories have the encodings that a compiler
    emits for them. *)
Lemma literal_bits :
  map bits [f0; f1; piFloat; of_pos 180] =
    [0x00000000; 0x3f800000; 0x40490fdb; 0x43340000]%Z ∧
  map bits [lit 2126 10000; lit 7874 10000; lit 7152 10000; lit 2848 10000;
            lit 722 10000; lit 9278 10000] =
    [0x3e59b3d0; 0x3f49930c; 0x3f371759; 0x3e91d14e;
     0x3d93dd98; 0x3f6d844d]%Z ∧
  map bits [lit 393 1000; lit 607 1000; lit 769 1000; lit 189 1000;
            lit 349 1000; lit 686 1000; lit 314 1000; lit 168 1000;
            lit 272 1000; lit 534 1000; lit 131 1000; lit 869 1000] =
    [0x3ec9374c; 0x3f1b645a; 0x3f44dd2f; 0x3e418937;
     0x3eb2b021; 0x3f2f9db2; 0x3ea0c49c; 0x3e2c0831;
     0x3e8b4396; 0x3f08b439; 0x3e0624dd; 0x3f5e76c9]%Z ∧
  map bits [lit 213 1000; lit 787 1000; lit 715 1000; lit 285 1000;
            lit 72 1000; lit 928 1000; lit 143 1000; lit 140 1000;
            lit 283 1000] =
    [0x3e5a1cac; 0x3f4978d5; 0x3f370a3d; 0x3e91eb85;
     0x3d9374bc; 0x3f6d9168; 0x3e126e98; 0x3e0f5c29;
     0x3e90e560]%Z.
Proof. repeat split; vm_compute; reflexivity. Qed.

(** C1, as the claim states it, fails: [grayscaleColorMatrix(0.0)] is not the
    luma matrix and [grayscaleColorMatrix(1.0)] is not the identity, neither
    as values nor under [operator==]. *)
Lemma claimed_grayscale_ends_fail :
  grayscaleColorMatrix f0 ≠ luma_matrix ∧
  operator_eq (grayscaleColorMatrix f0) luma_matrix = false ∧
  grayscaleColorMatrix f1 ≠ identity_matrix ∧
  operator_eq (grayscaleColorMatrix f1) identity_matrix = false.
Proof.
  repeat split; try (vm_compute; reflexivity);
    intros Heq; apply (f_equal m_matrix) in Heq; vm_compute in Heq;
    discriminate Heq.
Qed.

(** C1, amended: the two ends are the other way round.
    [grayscaleColorMatrix(1.0)] is the matrix whose every row is
    [{0.2126f, 0.7152f, 0.0722f}] and [grayscaleColorMatrix(0.0)] is the
    identity matrix. *)
Theorem grayscale_boundary :
  grayscaleColorMatrix f1 = luma_matrix ∧
  grayscaleColorMatrix f0 = identity_matrix.
Proof. split; vm_compute; reflexivity. Qed.

(** C2, as the claim states it, fails: [operator==] is false on
    [saturationColorMatrix(0.0)] and [grayscaleColorMatrix(0.0)]. *)
Lemma claimed_saturation_zero_fails :
  operator_eq (saturationColorMatrix f0) (grayscaleColorMatrix f0) = false.
Proof. vm_compute. reflexivity. Qed.

(** C2, amended: [saturationColorMatrix(0.0)] is the matrix whose every row
    is [{0.213f, 0.715f, 0.072f}]; under [operator==] it is equal neither to
    [grayscaleColorMatrix(0.0)], the identity, nor to
    [grayscaleColorMatrix(1.0)], whose coefficients have four digits; it is
    [saturationColorMatrix(1.0)] that is equal to
    [grayscaleColorMatrix(0.0)]. *)
Theorem saturation_boundary :
  saturationColorMatrix f0 = rows_of (lit 213 1000) (lit 715 1000) (lit 72 1000) ∧
  operator_eq (saturationColorMatrix f0) (grayscaleColorMatrix f0) = false ∧
  operator_eq (saturationColorMatrix f0) (grayscaleColorMatrix f1) = false ∧
  operator_eq (saturationColorMatrix f1) (grayscaleColorMatrix f0) = true.
Proof. repeat split; vm_compute; reflexivity. Qed.

Lemma deg2rad_zero : deg2rad f0 = f0.
Proof. vm_compute. reflexivity. Qed.

(** C8: with [cos(0) = 1] and [sin(0) = 0], [hueRotateColorMatrix(0.0)] is
    the identity matrix. *)
Theorem hueRotate_zero (cos sin : float → float) :
  cos f0 = f1 → sin f0 = f0 →
  hueRotateColorMatrix cos sin f0 = identity_matrix.
Proof.
  intros Hcos Hsin. unfold hueRotateColorMatrix.
  rewrite deg2rad_zero, Hcos, Hsin. vm_compute. reflexivity.
Qed.

Lemma hueRotate_zero_witness :
  hueRotateColorMatrix (λ x, f1 - x * x / of_pos 2)%f32 (λ x, x) f0 =
  identity_matrix.
Proof. apply hueRotate_zero; vm_compute; reflexivity. Defined.

(** ** Amounts outside [[0, 1]] *)

Lemma operator_eq_refl {C R : nat} (a : ColorMatrix C R) :
  well_sized a → Forall (λ x, is_nan x = false) (m_matrix a) →
  operator_eq a a = true.
Proof.
  intros Hlen Hall. apply operator_eq_true. intros row column Hrow Hcol.
  apply feq_refl. unfold at_.
  apply (Forall_lookup_total_1 (λ x, is_nan x = false)); [done|].
  rewrite Hlen. nia.
Qed.

Ltac coefficients_not_nan Ho :=
  cbv beta iota delta [m_matrix];
  repeat match goal with
         | |- Forall _ (_ :: _) => constructor
         | |- Forall _ [] => constructor
         end;
  (apply fadd_not_nan || apply fsub_not_nan); try reflexivity;
  (apply fmul_not_nan; [reflexivity | exact Ho]).

Lemma one_minus_amount_not_nan (amount : float) :
  is_nan amount = false → is_nan (clamp (f1 - amount)%f32 f0 f1) = false.
Proof. intros Ha. by apply clamp_not_nan, fsub_not_nan. Qed.

Lemma grayscale_not_nan (amount : float) :
  is_nan amount = false →
  Forall (λ x, is_nan x = false) (m_matrix (grayscaleColorMatrix amount)).
Proof.
  intros Ha. pose proof (one_minus_amount_not_nan amount Ha) as Ho.
  unfold grayscaleColorMatrix. cbv zeta. coefficients_not_nan Ho.
Qed.

Lemma sepia_not_nan (amount : float) :
  is_nan amount = false →
  Forall (λ x, is_nan x = false) (m_matrix (sepiaColorMatrix amount)).
Proof.
  intros Ha. pose proof (one_minus_amount_not_nan amount Ha) as Ho.
  unfold sepiaColorMatrix. cbv zeta. coefficients_not_nan Ho.
Qed.

Lemma grayscale_of_clamped (amount amount' : float) :
  clamp (f1 - amount)%f32 f0 f1 = clamp (f1 - amount')%f32 f0 f1 →
  grayscaleColorMatrix amount = grayscaleColorMatrix amount'.
Proof. unfold grayscaleColorMatrix. by intros ->. Qed.

Lemma sepia_of_clamped (amount amount' : float) :
  clamp (f1 - amount)%f32 f0 f1 = clamp (f1 - amount')%f32 f0 f1 →
  sepiaColorMatrix amount = sepiaColorMatrix amount'.
Proof. unfold sepiaColorMatrix. by intros ->. Qed.

Lemma clamp_below (amount : float) :
  flt amount f0 = true → clamp amount f0 f1 = f0.
Proof. unfold clamp. by intros ->. Qed.

Lemma clamp_above (amount : float) :
  flt f1 amount = true → clamp amount f0 f1 = f1.
Proof.
  unfold clamp. intros Hgt. rewrite Hgt.
  by destruct amount as [?|[]| |[] ? ?].
Qed.

(** C9: for every value [amount] of the type [float],
    [grayscaleColorMatrix(amount)] is the matrix
    [grayscaleColorMatrix(clamp(amount, 0, 1))], and likewise for
    [sepiaColorMatrix]; [operator==] holds of the two matrices unless
    [amount] is a NaN, when every coefficient of both is a NaN.  So an amount
    below [0] gives exactly the matrix of the amount [0] and an amount above
    [1] exactly the matrix of the amount [1]. *)
Theorem amount_is_clamped (amount : float) :
  valid amount = true →
  (grayscaleColorMatrix amount = grayscaleColorMatrix (clamp amount f0 f1) ∧
   sepiaColorMatrix amount = sepiaColorMatrix (clamp amount f0 f1)) ∧
  (is_nan amount = false →
     operator_eq (grayscaleColorMatrix amount)
                 (grayscaleColorMatrix (clamp amount f0 f1)) = true ∧
     operator_eq (sepiaColorMatrix amount)
                 (sepiaColorMatrix (clamp amount f0 f1)) = true) ∧
  (flt amount f0 = true →
     grayscaleColorMatrix amount = grayscaleColorMatrix f0 ∧
     sepiaColorMatrix amount = sepiaColorMatrix f0 ∧
     operator_eq (grayscaleColorMatrix amount) (grayscaleColorMatrix f0) = true ∧
     operator_eq (sepiaColorMatrix amount) (sepiaColorMatrix f0) = true) ∧
  (flt f1 amount = true →
     grayscaleColorMatrix amount = grayscaleColorMatrix f1 ∧
     sepiaColorMatrix amount = sepiaColorMatrix f1 ∧
     operator_eq (grayscaleColorMatrix amount) (grayscaleColorMatrix f1) = true ∧
     operator_eq (sepiaColorMatrix amount) (sepiaColorMatrix f1) = true).
Proof.
  intros Hv.
  pose proof (grayscale_of_clamped _ _ (one_minus_clamp amount Hv)) as Hg.
  pose proof (sepia_of_clamped _ _ (one_minus_clamp amount Hv)) as Hs.
  split; [by split|]. split; [|split].
  - intros Ha. rewrite <- Hg, <- Hs.
    split; (apply operator_eq_refl; [reflexivity|]).
    + by apply grayscale_not_nan.
    + by apply sepia_not_nan.
  - intros Hlt. rewrite (clamp_below _ Hlt) in Hg, Hs. rewrite Hg, Hs.
    repeat split; vm_compute; reflexivity.
  - intros Hgt. rewrite (clamp_above _ Hgt) in Hg, Hs. rewrite Hg, Hs.
    repeat split; vm_compute; reflexivity.
Qed.

Lemma amount_is_clamped_witness :
  grayscaleColorMatrix (lit 3 2) = grayscaleColorMatrix f1 ∧
  sepiaColorMatrix (lit 3 2) = sepiaColorMatrix f1 ∧
  operator_eq (grayscaleColorMatrix (lit 3 2)) (grayscaleColorMatrix f1) = true ∧
  operator_eq (sepiaColorMatrix (lit 3 2)) (sepiaColorMatrix f1) = true.
Proof.
  apply (proj2 (proj2 (proj2 (amount_is_clamped (lit 3 2) ltac:(reflexivity)))));
    reflexivity.
Defined.

(** With a NaN for [amount] the two matrices are the same, and [operator==]
    is false on them. *)
Lemma amount_nan :
  grayscaleColorMatrix S754_nan = grayscaleColorMatrix (clamp S754_nan f0 f1) ∧
  operator_eq (grayscaleColorMatrix S754_nan)
              (grayscaleColorMatrix (clamp S754_nan f0 f1)) = false.
Proof. split; reflexivity. Qed.

(** ** The scoped set adder *)

Section ScopedSetAdderProofs.

Context {T : Type} {T_eq_dec : EqDecision T} {T_countable : Countable T}.

Lemma ScopedSetAdder_ctor_spec (s : gset T) (x : T) :
  ScopedSetAdder_ctor s x =
  ({[x]} ∪ s, {| m_item := x; m_isNewEntry := bool_decide (x ∉ s) |}).
Proof.
  unfold ScopedSetAdder_ctor, HashSet_add. destruct (decide (x ∈ s)) as [Hin|Hout].
  - rewrite bool_decide_eq_false_2 by (by intros ?).
    f_equal. apply set_eq. intros y. rewrite elem_of_union, elem_of_singleton.
    split; [by right | by intros [->|?]].
  - by rewrite bool_decide_eq_true_2.
Qed.

(** What the destructor does to any set that still holds the item. *)
Lemma ScopedSetAdder_dtor_spec (self : ScopedSetAdder) (s : gset T) :
  m_item self ∈ s →
  ScopedSetAdder_dtor self s =
  Some (if m_isNewEntry self then s ∖ {[m_item self]} else s).
Proof.
  intros Hin. unfold ScopedSetAdder_dtor, HashSet_remove.
  destruct (m_isNewEntry self); [|reflexivity]. simpl.
  by destruct (decide (m_item self ∈ s)).
Qed.

Lemma ctor_dtor (s : gset T) (x : T) :
  ScopedSetAdder_dtor (ScopedSetAdder_ctor s x).2 (ScopedSetAdder_ctor s x).1 =
  Some s.
Proof.
  rewrite ScopedSetAdder_ctor_spec. simpl.
  rewrite ScopedSetAdder_dtor_spec
    by (simpl; apply elem_of_union_l; by apply elem_of_singleton).
  simpl. f_equal. apply set_eq. intros y. case_bool_decide as Hx.
  - rewrite elem_of_difference, elem_of_union, elem_of_singleton.
    split; [by intros [[->|?] ?] | intros Hy; split; [by right | by intros ->]].
  - rewrite elem_of_union, elem_of_singleton.
    split; [by intros [->|?] | by right].
Qed.

(** X14: scopes that nest, one adder per item of any list, repeated items
    included, give back the set they started from, and no destructor fails
    its assertion. *)
Lemma nested_scopes_restore (items : list T) (s : gset T) :
  nested_scopes items s = Some s.
Proof.
  revert s. induction items as [|x rest IH]; intros s; simpl; [done|].
  pose proof (ctor_dtor s x) as Hx.
  destruct (ScopedSetAdder_ctor s x) as [s1 adder]. by rewrite IH.
Qed.

(** C10: after the construction of a [ScopedSetAdder] over [s] and [x],
    [x] is a member of the set, every other item is a member exactly when
    it was one before, and [isNewEntry()] is true exactly when [x] was not
    a member before; the destructor then succeeds and gives back the set
    as it was before the construction: [x] is removed exactly when it was
    newly added, and no other member is added or removed. *)
Theorem ScopedSetAdder_scope (s : gset T) (x : T) :
  let '(s1, adder) := ScopedSetAdder_ctor s x in
  x ∈ s1 ∧
  (∀ y, y ≠ x → (y ∈ s1 ↔ y ∈ s)) ∧
  (isNewEntry adder = true ↔ x ∉ s) ∧
  ∃ s2, ScopedSetAdder_dtor adder s1 = Some s2 ∧
        s2 = s ∧
        (x ∉ s2 ↔ isNewEntry adder = true) ∧
        (∀ y, y ≠ x → (y ∈ s2 ↔ y ∈ s1)).
Proof.
  pose proof (ctor_dtor s x) as Hdtor.
  rewrite ScopedSetAdder_ctor_spec in *. simpl in Hdtor.
  unfold isNewEntry. simpl.
  split; [apply elem_of_union_l; by apply elem_of_singleton|].
  split.
  { intros y Hy. rewrite elem_of_union, elem_of_singleton.
    split; [by intros [?|?] | by right]. }
  split; [apply bool_decide_eq_true|].
  exists s. split; [exact Hdtor|]. split; [reflexivity|].
  split; [by rewrite bool_decide_eq_true|].
  intros y Hy. rewrite elem_of_union, elem_of_singleton.
  split; [by right | by intros [?|?]].
Qed.

End ScopedSetAdderProofs.

(** * Further properties *)

(** ** The comparison of [float] and [operator==] *)

Lemma feq_true (x y : float) :
  feq x y = true ↔ is_nan x = false ∧ same_number x y.
Proof.
  unfold feq, SFeqb, same_number. split.
  - destruct x as [[]|[]| |[] mx ex], y as [[]|[]| |[] my ey]; simpl;
      try discriminate; try (intros _; split; [done|]; by auto).
    + intros Hc. split; [done|]. left.
      destruct (Z.compare_spec ex ey) as [->|?|?]; try discriminate.
      change (Pos.compare_cont Eq mx my) with (mx ?= my)%positive in Hc.
      destruct (Pos.compare_spec mx my) as [->|?|?]; try discriminate.
      reflexivity.
    + intros Hc. split; [done|]. left.
      destruct (Z.compare_spec ex ey) as [->|?|?]; try discriminate.
      change (Pos.compare_cont Eq mx my) with (mx ?= my)%positive in Hc.
      destruct (Pos.compare_spec mx my) as [->|?|?]; try discriminate.
      reflexivity.
  - intros [Hn [<-|[Hx Hy]]].
    + destruct x as [sx|[]| |[] mx ex]; try done; simpl;
        by rewrite Z.compare_refl, Pos.compare_cont_refl.
    + by destruct Hx as [->| ->], Hy as [->| ->].
Qed.

Lemma same_number_sym (x y : float) : same_number x y → same_number y x.
Proof. intros [->|[Hx Hy]]; [by left | by right]. Qed.

Lemma same_number_trans (x y z : float) :
  same_number x y → same_number y z → same_number x z.
Proof.
  intros [->|[Hx Hy]] Hyz; [exact Hyz|].
  destruct Hyz as [<-|[_ Hz]]; by right.
Qed.

Lemma same_number_nan (x y : float) :
  same_number x y → is_nan x = is_nan y.
Proof.
  intros [->|[Hx Hy]]; [done|].
  by destruct Hx as [->| ->], Hy as [->| ->].
Qed.

Lemma feq_sym (x y : float) : feq x y = feq y x.
Proof.
  apply eq_true_iff_eq. rewrite !feq_true. split.
  - intros [Hn Hs]. split; [by rewrite <- (same_number_nan _ _ Hs)|].
    by apply same_number_sym.
  - intros [Hn Hs]. split; [by rewrite <- (same_number_nan _ _ Hs)|].
    by apply same_number_sym.
Qed.

Lemma feq_trans (x y z : float) :
  feq x y = true → feq y z = true → feq x z = true.
Proof.
  rewrite !feq_true. intros [Hx Hxy] [Hy Hyz].
  split; [done|]. by apply same_number_trans with y.
Qed.

Lemma operator_eq_sym {C R : nat} (a b : ColorMatrix C R) :
  operator_eq a b = operator_eq b a.
Proof.
  apply eq_true_iff_eq. rewrite !operator_eq_true.
  split; intros Hall row column Hr Hc; rewrite feq_sym; by apply Hall.
Qed.

(** X1: [operator==] is true exactly when, at every position of the
    matrices, the coefficient of the first is not a NaN and the two
    coefficients are identical or are two zeros. *)
Theorem operator_eq_identical {C R : nat} (a b : ColorMatrix C R) :
  operator_eq a b = true ↔
  ∀ row column, (row < R)%nat → (column < C)%nat →
    is_nan (at_ a row column) = false ∧
    same_number (at_ a row column) (at_ b row column).
Proof.
  rewrite operator_eq_true.
  split; intros Hall row column Hr Hc; apply feq_true; by apply Hall.
Qed.

(** X2: [operator==] is symmetric and transitive, and [operator!=] is
    symmetric; a matrix is equal to itself exactly when none of its
    coefficients is a NaN. *)
Theorem operator_eq_partial_equivalence {C R : nat} (a b c : ColorMatrix C R) :
  operator_eq a b = operator_eq b a ∧
  operator_ne a b = operator_ne b a ∧
  (operator_eq a b = true → operator_eq b c = true → operator_eq a c = true) ∧
  (operator_eq a a = true ↔
     ∀ row column, (row < R)%nat → (column < C)%nat →
       is_nan (at_ a row column) = false).
Proof.
  split; [apply operator_eq_sym|].
  split; [unfold operator_ne; by rewrite operator_eq_sym|].
  split.
  - rewrite !operator_eq_true. intros Hab Hbc row column Hr Hc.
    apply feq_trans with (at_ b row column); [by apply Hab | by apply Hbc].
  - rewrite operator_eq_true.
    split; intros Hall row column Hr Hc.
    + by apply (feq_true _ (at_ a row column)), Hall.
    + apply feq_true. split; [by apply Hall | by left].
Qed.

Lemma operator_eq_partial_equivalence_witness :
  operator_eq (grayscaleColorMatrix (lit 3 2)) (grayscaleColorMatrix f1) = true.
Proof.
  apply (proj1 (proj2 (proj2 (operator_eq_partial_equivalence
           (grayscaleColorMatrix (lit 3 2)) luma_matrix
           (grayscaleColorMatrix f1)))));
    vm_compute; reflexivity.
Defined.

(** ** More of binary32 *)

Lemma fmul_comm (x y : float) : (x * y)%f32 = (y * x)%f32.
Proof.
  destruct x as [sx|sx| |sx mx ex], y as [sy|sy| |sy my ey]; simpl;
    try reflexivity; try (by rewrite xorb_comm).
  unfold fmul, SFmul. by rewrite xorb_comm, Pos.mul_comm, Z.add_comm.
Qed.

Lemma fmul_one_l (x : float) : valid x = true → (f1 * x)%f32 = x.
Proof. intros Hv. rewrite fmul_comm. by apply fmul_one_r. Qed.

Lemma fmul_zero_l (x : float) :
  finite_number x = true → is_zero (f0 * x)%f32 = true.
Proof. by destruct x. Qed.

Lemma fadd_nan_l (x y : float) : is_nan x = true → is_nan (x + y)%f32 = true.
Proof. by destruct x. Qed.

Lemma fadd_nan_r (x y : float) : is_nan y = true → is_nan (x + y)%f32 = true.
Proof. destruct y; try done. by destruct x. Qed.

Lemma fmul_nan_r (x y : float) : is_nan y = true → is_nan (x * y)%f32 = true.
Proof. destruct y; try done. by destruct x. Qed.

Lemma fmul_nan_l (x y : float) : is_nan x = true → is_nan (x * y)%f32 = true.
Proof. by destruct x. Qed.

Lemma fmul_zero_infinity (x y : float) :
  is_zero x = true → is_infinity y = true → is_nan (x * y)%f32 = true.
Proof. by destruct x, y. Qed.

Lemma sum_from_nan (acc : float) (terms : list float) :
  is_nan acc = true → is_nan (sum_from acc terms) = true.
Proof.
  revert acc. induction terms as [|t terms IH]; intros acc Hacc; [done|].
  simpl. apply IH. by apply fadd_nan_l.
Qed.

Lemma sum_from_nan_term (acc : float) (terms : list float) (t : float) :
  t ∈ terms → is_nan t = true → is_nan (sum_from acc terms) = true.
Proof.
  revert acc. induction terms as [|u terms IH]; intros acc Hin Ht.
  - by apply elem_of_nil in Hin.
  - simpl. apply elem_of_cons in Hin as [->|Hin].
    + apply sum_from_nan. by apply fadd_nan_r.
    + by apply IH.
Qed.

(** ** What the transform reads and what it propagates *)

Lemma product_in_row_terms (Size : nat) {C R : nat} (m : ColorMatrix C R)
    (v : list float) (row c : nat) :
  (c < C)%nat → (c < Size)%nat →
  (at_ m row c * v !!! c)%f32 ∈ row_terms Size m v row.
Proof.
  intros HC HS. unfold row_terms.
  assert (∀ n, (c < n)%nat → (at_ m row c * v !!! c)%f32 ∈ products m v row n)
    as Hin.
  { intros n Hn. apply list_elem_of_In. unfold products.
    apply (in_map (λ c, (at_ m row c * v !!! c)%f32)). apply in_seq. lia. }
  destruct (decide (C ≤ Size)%nat); [by apply Hin|].
  apply elem_of_app. left. by apply Hin.
Qed.

Lemma coefficient_in_row_terms (Size : nat) {C R : nat} (m : ColorMatrix C R)
    (v : list float) (row c : nat) :
  (Size ≤ c < C)%nat → at_ m row c ∈ row_terms Size m v row.
Proof.
  intros Hc. unfold row_terms. destruct (decide (C ≤ Size)%nat); [lia|].
  apply elem_of_app. right. apply list_elem_of_In. unfold coefficients.
  apply (in_map (λ c, at_ m row c)). apply in_seq. lia.
Qed.

(** X3: a NaN is never lost: the component [row] of the result is a NaN as
    soon as one product [at(row, c) * inputVector[c]] of the row is one,
    which happens when either factor is a NaN and when one is a zero and
    the other an infinity, or as soon as a coefficient of a column beyond
    the vector is one. *)
Theorem transformed_propagates_nan (Size : nat) {C R : nat}
    (m : ColorMatrix C R) (inputVector : list float) (row : nat) :
  (R ≤ Size)%nat → (row < R)%nat →
  (∀ c, (c < C)%nat → (c < Size)%nat →
     is_nan (inputVector !!! c) = true ∨
     is_nan (at_ m row c) = true ∨
     (is_zero (at_ m row c) = true ∧ is_infinity (inputVector !!! c) = true) ∨
     (is_infinity (at_ m row c) = true ∧ is_zero (inputVector !!! c) = true) →
     is_nan (transformedColorComponents Size m inputVector !!! row) = true) ∧
  (∀ c, (Size ≤ c < C)%nat →
     is_nan (at_ m row c) = true →
     is_nan (transformedColorComponents Size m inputVector !!! row) = true).
Proof.
  intros HR Hrow.
  destruct (transformed_spec Size m inputVector HR) as (_ & Hrows & _).
  rewrite (Hrows row Hrow). split.
  - intros c HC HS Hcase.
    apply sum_from_nan_term with (at_ m row c * inputVector !!! c)%f32;
      [by apply product_in_row_terms|].
    destruct Hcase as [Hv|[Ha|[[Ha Hv]|[Ha Hv]]]].
    + by apply fmul_nan_r.
    + by apply fmul_nan_l.
    + by apply fmul_zero_infinity.
    + rewrite fmul_comm. by apply fmul_zero_infinity.
  - intros c Hc Ha.
    apply sum_from_nan_term with (at_ m row c); [|done].
    by apply coefficient_in_row_terms.
Qed.

Lemma transformed_propagates_nan_witness :
  is_nan (transformedColorComponents 4 identity_matrix
            [S754_infinity false; f1; f1; f1] !!! 1%nat) = true.
Proof.
  refine (proj1 (transformed_propagates_nan 4 identity_matrix
                   [S754_infinity false; f1; f1; f1] 1 _ _) 0%nat _ _ _);
    [lia | lia | lia | lia |].
  right. right. left. split; reflexivity.
Defined.

(** X4: the components of the result below [RowCount] depend on the
    components of the input below [min(ColumnCount, Size)] only. *)
Theorem transformed_reads_prefix (Size : nat) {C R : nat}
    (m : ColorMatrix C R) (v v' : list float) (row : nat) :
  (R ≤ Size)%nat → (row < R)%nat →
  (∀ c, (c < C)%nat → (c < Size)%nat → v !!! c = v' !!! c) →
  transformedColorComponents Size m v !!! row =
  transformedColorComponents Size m v' !!! row.
Proof.
  intros HR Hrow Hv.
  destruct (transformed_spec Size m v HR) as (_ & Hrows & _).
  destruct (transformed_spec Size m v' HR) as (_ & Hrows' & _).
  rewrite (Hrows row Hrow), (Hrows' row Hrow).
  f_equal. unfold row_terms.
  assert (∀ n, (n ≤ C)%nat → (n ≤ Size)%nat →
            products m v row n = products m v' row n) as Hp.
  { intros n HnC HnS. unfold products. apply map_ext_in. intros c Hc.
    apply in_seq in Hc. rewrite Hv by lia. reflexivity. }
  destruct (decide (C ≤ Size)%nat); [by apply Hp|].
  f_equal. apply Hp; lia.
Qed.

Lemma transformed_reads_prefix_witness :
  transformedColorComponents 4 luma_matrix [f1; f0; f1; f0] !!! 2%nat =
  transformedColorComponents 4 luma_matrix [f1; f0; f1; f1] !!! 2%nat.
Proof.
  apply (transformed_reads_prefix 4 luma_matrix); [lia | lia |].
  intros [|[|[|c]]] HC HS; try reflexivity. lia.
Defined.

(** ** Identity matrices *)

Lemma fadd_zero_zero (x : float) :
  is_zero x = true → (f0 + x)%f32 = f0.
Proof. by destruct x as [[]| | |]. Qed.

Lemma sum_from_zeros (terms : list float) :
  Forall (λ t, is_zero t = true) terms → sum_from f0 terms = f0.
Proof.
  induction 1 as [|t terms Ht _ IH]; [done|].
  change (sum_from f0 (t :: terms)) with (sum_from (f0 + t)%f32 terms).
  by rewrite fadd_zero_zero.
Qed.

Lemma is_number_add_zero (r x t : float) :
  is_number r x → is_zero t = true → is_number (r + t)%f32 x.
Proof.
  intros [Hs Hi] Ht. destruct t as [st| | |]; try discriminate.
  destruct r as [sr| | |]; try (split; [exact Hs | exact Hi]).
  assert (is_zero x = true) as Hx.
  { destruct Hs as [<-|[_ [->| ->]]]; reflexivity. }
  split; [|by rewrite Hx].
  right. split; [by destruct sr, st; auto|].
  destruct x as [[]| | |]; try discriminate; auto.
Qed.

Lemma is_number_sum_zeros (r x : float) (terms : list float) :
  is_number r x → Forall (λ t, is_zero t = true) terms →
  is_number (sum_from r terms) x.
Proof.
  intros Hr Hall. revert r Hr.
  induction Hall as [|t terms Ht _ IH]; intros r Hr; [done|].
  change (sum_from r (t :: terms)) with (sum_from (r + t)%f32 terms).
  apply IH. by apply is_number_add_zero.
Qed.

Lemma is_number_from_zero (x : float) : is_number (f0 + x)%f32 x.
Proof.
  destruct x as [[]| | |]; split; try reflexivity; try (by left);
    try discriminate.
  right. auto.
Qed.

Section IdentityLike.

Variable Size n : nat.
Variable m : ColorMatrix n n.
Variable v : list float.
Hypothesis Hid : identity_like m.
Hypothesis Hv :
  ∀ c, (c < n)%nat → valid (v !!! c) = true ∧ finite_number (v !!! c) = true.

Lemma off_diagonal_zeros (row lo len : nat) :
  (row < n)%nat → (lo + len ≤ n)%nat → (row < lo ∨ lo + len ≤ row)%nat →
  Forall (λ t, is_zero t = true)
    (map (λ c, (at_ m row c * v !!! c)%f32) (seq lo len)).
Proof.
  intros Hrow Hn Hoff. apply Forall_forall. intros t Ht.
  apply list_elem_of_In, in_map_iff in Ht as (c & <- & Hc).
  apply in_seq in Hc. rewrite Hid by lia.
  destruct (decide (row = c)); [lia|].
  apply fmul_zero_l, Hv. lia.
Qed.

Lemma identity_like_row (row : nat) :
  (row < n)%nat →
  is_number (sum_from f0 (products m v row n)) (v !!! row).
Proof.
  intros Hrow. unfold products.
  assert (seq 0 n = seq 0 row ++ row :: seq (S row) (n - row - 1)) as ->.
  { replace (seq 0 n) with (seq 0 (row + S (n - row - 1)))
      by (f_equal; lia).
    by rewrite seq_app. }
  rewrite map_app. cbn [map].
  unfold sum_from. rewrite fold_left_app. cbn [fold_left].
  fold (sum_from f0 (map (λ c, (at_ m row c * v !!! c)%f32) (seq 0 row))).
  rewrite sum_from_zeros by (apply off_diagonal_zeros; lia).
  rewrite Hid by lia. destruct (decide (row = row)); [|done].
  rewrite fmul_one_l by (apply Hv; lia).
  apply (is_number_sum_zeros (f0 + v !!! row)%f32);
    [apply is_number_from_zero|].
  apply off_diagonal_zeros; lia.
Qed.

End IdentityLike.

(** X5: a square matrix with [1] on the diagonal and [0] elsewhere changes
    nothing of a vector whose components under its rows are finite: each of
    these components of the result is the same number as in the input, and
    identical to it unless it is a zero; the components under no row are
    those of the input. *)
Theorem identity_like_transform (Size : nat) {n : nat} (m : ColorMatrix n n)
    (inputVector : list float) :
  (n ≤ Size)%nat → identity_like m →
  (∀ c, (c < n)%nat →
     valid (inputVector !!! c) = true ∧
     finite_number (inputVector !!! c) = true) →
  (∀ row, (row < n)%nat →
     is_number (transformedColorComponents Size m inputVector !!! row)
               (inputVector !!! row)) ∧
  (∀ i, (n ≤ i < Size)%nat →
     transformedColorComponents Size m inputVector !!! i = inputVector !!! i).
Proof.
  intros HS Hid Hv.
  destruct (transformed_spec Size m inputVector HS) as (_ & Hrows & Hrest).
  split; [|exact Hrest].
  intros row Hrow. rewrite (Hrows row Hrow). unfold row_terms.
  destruct (decide (n ≤ Size)%nat); [|lia].
  by apply identity_like_row.
Qed.

Lemma identity_like_transform_witness :
  is_number
    (transformedColorComponents 4 (grayscaleColorMatrix f0)
       [lit 1 2; f0; lit 1 4; f1] !!! 2%nat)
    (lit 1 4).
Proof.
  refine (proj1 (identity_like_transform 4 (grayscaleColorMatrix f0)
                   [lit 1 2; f0; lit 1 4; f1] _ _ _) 2%nat _);
    [lia | | | lia].
  - intros [|[|[|r]]] [|[|[|c]]] Hr Hc; try lia; vm_compute; reflexivity.
  - intros [|[|[|c]]] Hc; try (split; reflexivity). lia.
Defined.

(** ** Chains of matrices *)

Lemma transformed_passthrough (Size : nat) (m : AnyMatrix) (v : list float)
    (i : nat) :
  (rows m ≤ i < Size)%nat → transformed Size m v !!! i = v !!! i.
Proof.
  intros Hi. unfold transformed.
  destruct (transformed_spec Size (matrix_of m) v ltac:(lia)) as (_ & _ & Hrest).
  by apply Hrest.
Qed.

(** X6: a chain of matrices can be cut anywhere: applying the whole chain
    is applying the part before the cut and then, to its result, the part
    after the cut. *)
Theorem applyMatrices_cut (Size : nat) (components : list float)
    (matrix : AnyMatrix) (before : list AnyMatrix)
    (next : AnyMatrix) (after : list AnyMatrix) :
  applyMatricesToColorComponents Size components matrix
    (before ++ next :: after) =
  applyMatricesToColorComponents Size
    (applyMatricesToColorComponents Size components matrix before)
    next after.
Proof.
  revert components matrix.
  induction before as [|b before IH]; intros components matrix.
  - reflexivity.
  - simpl. by rewrite IH.
Qed.

(** X7: a component whose index is not below the row count of any matrix
    of a chain comes out of the chain as it went in. *)
Theorem applyMatrices_passthrough (Size : nat) (components : list float)
    (matrix : AnyMatrix) (matrices : list AnyMatrix) (i : nat) :
  (i < Size)%nat →
  Forall (λ m, (rows m ≤ i)%nat) (matrix :: matrices) →
  applyMatricesToColorComponents Size components matrix matrices !!! i =
  components !!! i.
Proof.
  intros Hi Hall. revert components matrix Hall.
  induction matrices as [|next rest IH]; intros components matrix Hall.
  - apply Forall_cons in Hall as [Hm _]. simpl.
    apply transformed_passthrough. lia.
  - apply Forall_cons in Hall as [Hm Hall]. simpl.
    rewrite IH by assumption. apply transformed_passthrough. lia.
Qed.

Lemma applyMatrices_passthrough_witness :
  applyMatricesToColorComponents 4 [f1; f0; f1; lit 1 2]
    (any (grayscaleColorMatrix f1)) [any (sepiaColorMatrix f1)] !!! 3%nat =
  lit 1 2.
Proof.
  apply (applyMatrices_passthrough 4 [f1; f0; f1; lit 1 2]
           (any (grayscaleColorMatrix f1)) [any (sepiaColorMatrix f1)] 3);
    [lia|].
  repeat constructor.
Defined.

(** ** The size of the coefficients *)

Section Magnitude.

Local Open Scope Z_scope.

Lemma digits2_pos_le (m : positive) (j : Z) :
  0 ≤ j → Z.pos m ≤ 2 ^ j → Z.pos (digits2_pos m) ≤ j + 1.
Proof.
  intros Hj Hm. pose proof (digits2_pos_bounds m) as [Dlo _].
  destruct (Z.le_gt_cases (Z.pos (digits2_pos m)) (j + 1)) as [|Hgt]; [done|].
  assert (2 ^ (j + 1) ≤ 2 ^ (Z.pos (digits2_pos m) - 1))
    by (apply Z.pow_le_mono_r; lia).
  assert (2 ^ j < 2 ^ (j + 1)) by (apply Z.pow_lt_mono_r; lia). lia.
Qed.

Lemma pos_below_pow (p : positive) (e K : Z) :
  Z.pos (digits2_pos p) + e ≤ K → Z.pos p < 2 ^ (K - e).
Proof.
  intros Hd. pose proof (digits2_pos_bounds p) as [_ Dhi].
  assert (2 ^ Z.pos (digits2_pos p) ≤ 2 ^ (K - e))
    by (apply Z.pow_le_mono_r; lia). lia.
Qed.

Lemma div_pow_below (a n j : Z) :
  0 ≤ n → 0 ≤ j → 0 ≤ a < 2 ^ (j + n) → a / 2 ^ n < 2 ^ j.
Proof.
  intros Hn Hj Ha. rewrite Z.pow_add_r in Ha by lia.
  assert (0 < 2 ^ n) by (apply Z.pow_pos_nonneg; lia).
  apply Z.div_lt_upper_bound; lia.
Qed.

Lemma div_pow_le (a n j : Z) :
  0 ≤ n → 0 ≤ j → 0 ≤ a ≤ 2 ^ (j + n) → a / 2 ^ n ≤ 2 ^ j.
Proof.
  intros Hn Hj Ha. rewrite Z.pow_add_r in Ha by lia.
  assert (0 < 2 ^ n) by (apply Z.pow_pos_nonneg; lia).
  apply Z.div_le_upper_bound; lia.
Qed.

Lemma shr_fexp_zero (e : Z) (l : location) :
  shr_m (shr_fexp prec emax 0 e l).1 = 0.
Proof.
  unfold shr_fexp.
  destruct (shr_spec (shr_record_of_loc 0 l) e
              (fexp prec emax (Zdigits2 0 + e) - e)) as [-> _];
    rewrite shr_m_of_loc; [done|].
  apply Z.div_0_l. apply Z.pow_nonzero; lia.
Qed.

Lemma binary_round_aux_magnitude (s : bool) (p : positive) (e K : Z)
    (l : location) :
  -148 ≤ K ≤ 105 → Z.pos (digits2_pos p) + e ≤ K →
  magnitude_below (K + 1) (binary_round_aux prec emax s (Z.pos p) e l).
Proof.
  intros HK Hd. rewrite binary_round_aux_eq. cbv zeta.
  destruct (shr_fexp_spec p e l) as [Hm1 He1].
  set (r1 := shr_fexp prec emax (Z.pos p) e l) in *.
  pose proof (digits2_pos_bounds p) as [Dlo Dhi].
  pose proof (pos_below_pow p e K Hd) as Hp.
  set (d := Z.pos (digits2_pos p)) in *.
  rewrite fexp_eq in Hm1, He1.
  set (n1 := Z.max 0 (Z.max (d + e - 24) (-149) - e)) in *.
  assert (0 < d) as Hdpos by (unfold d; lia).
  assert (r1.2 ≤ K - 1) as He1K by lia.
  assert (0 ≤ shr_m r1.1 < 2 ^ (K - r1.2)) as Hb1.
  { rewrite Hm1. split; [apply Z.div_pos; [lia|apply Z.pow_pos_nonneg; lia]|].
    apply div_pow_below; [lia | lia |].
    replace (K - r1.2 + n1) with (K - e) by lia. lia. }
  pose proof (round_nearest_even_bounds (shr_m r1.1) (loc_of_shr_record r1.1))
    as Hm2.
  destruct (round_nearest_even _ _) as [|p2|p2] eqn:Hr2; [| |lia].
  { by rewrite shr_fexp_zero. }
  destruct (shr_fexp_spec p2 r1.2 loc_Exact) as [Hm3 He3].
  set (r2 := shr_fexp prec emax (Z.pos p2) r1.2 loc_Exact) in *.
  rewrite fexp_eq in Hm3, He3.
  assert (Z.pos p2 ≤ 2 ^ (K - r1.2)) as Hp2 by lia.
  pose proof (digits2_pos_le p2 (K - r1.2) ltac:(lia) Hp2) as Hd2.
  set (n2 := Z.max 0 (Z.max (Z.pos (digits2_pos p2) + r1.2 - 24) (-149) - r1.2))
    in *.
  assert (r2.2 ≤ K - 1) as He3K by lia.
  assert (0 ≤ shr_m r2.1 ≤ 2 ^ (K - r2.2)) as Hb3.
  { rewrite Hm3. split; [apply Z.div_pos; [lia|apply Z.pow_pos_nonneg; lia]|].
    apply div_pow_le; [lia | lia |].
    replace (K - r2.2 + n2) with (K - r1.2) by lia. lia. }
  destruct (shr_m r2.1) as [|m3|m3]; [done| |lia].
  destruct (Z.leb_spec r2.2 (emax - prec)) as [_|Hover];
    [|unfold emax, prec in Hover; lia].
  simpl. pose proof (digits2_pos_le m3 (K - r2.2) ltac:(lia) (proj2 Hb3)). lia.
Qed.

Lemma binary_round_aux_mantissa (s : bool) (p : positive) (e : Z)
    (l : location) :
  mantissa_fits (binary_round_aux prec emax s (Z.pos p) e l).
Proof.
  rewrite binary_round_aux_eq. cbv zeta.
  destruct (shr_fexp_spec p e l) as [Hm1 He1].
  set (r1 := shr_fexp prec emax (Z.pos p) e l) in *.
  pose proof (digits2_pos_bounds p) as [Dlo Dhi].
  set (d := Z.pos (digits2_pos p)) in *.
  rewrite fexp_eq in Hm1, He1.
  set (n1 := Z.max 0 (Z.max (d + e - 24) (-149) - e)) in *.
  assert (0 ≤ shr_m r1.1 < 2 ^ 24) as Hb1.
  { rewrite Hm1. split; [apply Z.div_pos; [lia|apply Z.pow_pos_nonneg; lia]|].
    apply div_pow_below; [lia | lia |]. split; [lia|].
    assert (2 ^ d ≤ 2 ^ (24 + n1)) by (apply Z.pow_le_mono_r; lia). lia. }
  pose proof (round_nearest_even_bounds (shr_m r1.1) (loc_of_shr_record r1.1))
    as Hm2.
  destruct (round_nearest_even _ _) as [|p2|p2] eqn:Hr2; [| |lia].
  { by rewrite shr_fexp_zero. }
  destruct (shr_fexp_spec p2 r1.2 loc_Exact) as [Hm3 He3].
  set (r2 := shr_fexp prec emax (Z.pos p2) r1.2 loc_Exact) in *.
  rewrite fexp_eq in Hm3.
  set (n2 := Z.max 0 (Z.max (Z.pos (digits2_pos p2) + r1.2 - 24) (-149) - r1.2))
    in *.
  assert (shr_m r2.1 < 2 ^ 24) as Hb3.
  { rewrite Hm3. destruct (decide (Z.pos p2 < 2 ^ 24)) as [Hlt|Hge].
    - apply Z.le_lt_trans with (Z.pos p2); [|done].
      apply Z.div_le_upper_bound; [apply Z.pow_pos_nonneg; lia|].
      assert (0 < 2 ^ n2) by (apply Z.pow_pos_nonneg; lia).
      nia.
    - assert (Z.pos p2 = 2 ^ 24) as Hp2 by lia.
      assert (Z.pos (digits2_pos p2) = 25) as Hd2
        by (apply digits2_pos_unique; rewrite Hp2; change (25 - 1) with 24;
            split; [lia | apply Z.pow_lt_mono_r; lia]).
      assert (1 ≤ n2) by lia.
      rewrite Hp2. apply div_pow_below; [lia | lia |]. split; [lia|].
      apply Z.pow_lt_mono_r; lia. }
  destruct (shr_m r2.1) as [|m3|m3]; [done| |done].
  by destruct (_ <=? _).
Qed.

Lemma binary_round_shape (s : bool) (p : positive) (e K : Z) :
  mantissa_fits (binary_round prec emax s p e) ∧
  (-148 ≤ K ≤ 105 → Z.pos (digits2_pos p) + e ≤ K →
   magnitude_below (K + 1) (binary_round prec emax s p e)).
Proof.
  unfold binary_round.
  set (d := Z.pos (digits2_pos p)).
  destruct (shl_align_spec p e (fexp prec emax (d + e))) as [He' Hm'].
  destruct (shl_align p e _) as [mz ez]. simpl in He', Hm'.
  split; [apply binary_round_aux_mantissa|].
  intros HK Hd. apply binary_round_aux_magnitude; [done|].
  rewrite (digits2_pos_shift p mz (e - Z.min e (fexp prec emax (d + e))))
    by (lia || exact Hm').
  fold d. lia.
Qed.

Lemma digits_of_below (p : positive) (e K : Z) :
  Z.pos p < 2 ^ (K - e) → Z.pos (digits2_pos p) + e ≤ K.
Proof.
  intros Hp.
  assert (0 ≤ K - e).
  { destruct (Z.le_gt_cases 0 (K - e)); [done|].
    rewrite Z.pow_neg_r in Hp by lia. lia. }
  pose proof (digits2_pos_le p (K - e) ltac:(lia) ltac:(lia)) as Hle.
  pose proof (digits2_pos_bounds p) as [Dlo _].
  destruct (Z.le_gt_cases (Z.pos (digits2_pos p)) (K - e)); [lia|].
  assert (Z.pos (digits2_pos p) - 1 = K - e) as Heq by lia.
  rewrite Heq in Dlo. lia.
Qed.

Lemma binary_normalize_shape (m e K : Z) (sz : bool) :
  mantissa_fits (binary_normalize prec emax m e sz) ∧
  (-148 ≤ K ≤ 105 → Z.abs m < 2 ^ (K - e) →
   magnitude_below (K + 1) (binary_normalize prec emax m e sz)).
Proof.
  destruct m as [|p|p]; simpl; [done| |];
    (split; [apply (binary_round_shape _ p e K)|]);
    intros HK Hm; apply binary_round_shape; auto using digits_of_below.
Qed.

Lemma magnitude_below_mono (K K' : Z) (x : float) :
  K ≤ K' → magnitude_below K x → magnitude_below K' x.
Proof. intros HK. destruct x; simpl; try done. lia. Qed.

Lemma magnitude_below_finite (K : Z) (x : float) :
  magnitude_below K x → finite_number x = true.
Proof. by destruct x. Qed.

Lemma SFadd_finite (sx : bool) (mx : positive) (ex : Z)
    (sy : bool) (my : positive) (ey : Z) :
  (S754_finite sx mx ex + S754_finite sy my ey)%f32 =
  binary_normalize prec emax
    (cond_Zopp sx (Z.pos mx * 2 ^ (ex - Z.min ex ey)) +
     cond_Zopp sy (Z.pos my * 2 ^ (ey - Z.min ex ey)))
    (Z.min ex ey) false.
Proof.
  unfold fadd, SFadd. cbv zeta.
  destruct (shl_align_spec mx ex (Z.min ex ey)) as [_ ->].
  destruct (shl_align_spec my ey (Z.min ex ey)) as [_ ->].
  replace (Z.min ex (Z.min ex ey)) with (Z.min ex ey) by lia.
  replace (Z.min ey (Z.min ex ey)) with (Z.min ex ey) by lia.
  reflexivity.
Qed.

Lemma aligned_below (m : positive) (e ez K : Z) :
  ez ≤ e → Z.pos (digits2_pos m) + e ≤ K →
  0 < Z.pos m * 2 ^ (e - ez) < 2 ^ (K - ez).
Proof.
  intros Hez Hd. pose proof (pos_below_pow m e K Hd) as Hm.
  assert (0 ≤ K - e).
  { destruct (Z.le_gt_cases 0 (K - e)); [done|].
    rewrite Z.pow_neg_r in Hm by lia. lia. }
  assert (0 < 2 ^ (e - ez)) by (apply Z.pow_pos_nonneg; lia).
  replace (K - ez) with (K - e + (e - ez)) by lia.
  rewrite Z.pow_add_r by lia. nia.
Qed.

Lemma sum_below (sx sy : bool) (X Y B : Z) :
  0 < X < B → 0 < Y < B →
  Z.abs (cond_Zopp sx X + cond_Zopp sy Y) < 2 * B ∧
  Z.abs (cond_Zopp sx X - cond_Zopp sy Y) < 2 * B.
Proof. destruct sx, sy; simpl; lia. Qed.

Lemma fadd_fsub_magnitude (K : Z) (x y : float) :
  -149 ≤ K ≤ 104 → magnitude_below K x → magnitude_below K y →
  magnitude_below (K + 2) (x + y)%f32 ∧ magnitude_below (K + 2) (x - y)%f32.
Proof.
  intros HK Hx Hy.
  destruct x as [sx| | |sx mx ex], y as [sy| | |sy my ey]; try done.
  - by destruct sx, sy.
  - split; simpl in *; lia.
  - split; simpl in *; lia.
  - rewrite SFadd_finite, SFsub_finite. simpl in Hx, Hy.
    set (ez := Z.min ex ey).
    pose proof (aligned_below mx ex ez K ltac:(lia) Hx) as HX.
    pose proof (aligned_below my ey ez K ltac:(lia) Hy) as HY.
    destruct (sum_below sx sy _ _ _ HX HY) as [Hadd Hsub].
    assert (2 * 2 ^ (K - ez) = 2 ^ (K + 1 - ez)) as Hpow.
    { replace (K + 1 - ez) with (Z.succ (K - ez)) by lia.
      rewrite Z.pow_succ_r; [done|].
      destruct (Z.le_gt_cases 0 (K - ez)); [done|].
      rewrite Z.pow_neg_r in HX by lia. lia. }
    rewrite Hpow in Hadd, Hsub.
    replace (K + 2) with (K + 1 + 1) by lia.
    split; apply binary_normalize_shape; (lia || assumption).
Qed.

Lemma fmul_magnitude (K1 K2 : Z) (x y : float) :
  -148 ≤ K1 + K2 ≤ 105 → magnitude_below K1 x → magnitude_below K2 y →
  magnitude_below (K1 + K2 + 1) (x * y)%f32.
Proof.
  intros HK Hx Hy.
  destruct x as [sx| | |sx mx ex], y as [sy| | |sy my ey]; try done.
  simpl in Hx, Hy. unfold fmul, SFmul.
  apply binary_round_aux_magnitude; [done|].
  apply digits_of_below.
  pose proof (pos_below_pow mx ex K1 Hx) as Hmx.
  pose proof (pos_below_pow my ey K2 Hy) as Hmy.
  assert (0 ≤ K1 - ex).
  { destruct (Z.le_gt_cases 0 (K1 - ex)); [done|].
    rewrite Z.pow_neg_r in Hmx by lia. lia. }
  assert (0 ≤ K2 - ey).
  { destruct (Z.le_gt_cases 0 (K2 - ey)); [done|].
    rewrite Z.pow_neg_r in Hmy by lia. lia. }
  replace (K1 + K2 - (ex + ey)) with ((K1 - ex) + (K2 - ey)) by lia.
  rewrite Z.pow_add_r by lia. rewrite Pos2Z.inj_mul. nia.
Qed.

Lemma fsub_one_mantissa (amount : float) : mantissa_fits (f1 - amount)%f32.
Proof.
  destruct amount as [s|s| |s m e]; try done.
  unfold f1. rewrite SFsub_finite.
  apply (binary_normalize_shape _ _ 0).
Qed.

(** The factor [oneMinusAmount] of the factories is a number of [[0, 1]]
    unless [amount] is a NaN. *)
Lemma one_minus_amount_magnitude (amount : float) :
  is_nan amount = false →
  magnitude_below 1 (clamp (f1 - amount)%f32 f0 f1).
Proof.
  intros Ha. unfold clamp.
  destruct (flt (f1 - amount)%f32 f0) eqn:Hlo; [done|].
  destruct (flt f1 (f1 - amount)%f32) eqn:Hhi; [simpl; lia|].
  pose proof (fsub_one_mantissa amount) as Hfit.
  pose proof (fsub_not_nan f1 amount eq_refl Ha) as Hnan.
  destruct (f1 - amount)%f32 as [s|[]| |[] m e]; try done.
  simpl in Hfit. simpl. unfold flt, SFltb, SFcompare, f1 in Hhi.
  destruct (Z.compare_spec (-23) e) as [Heq|Hl|Hg]; [subst e| discriminate |].
  - apply digits_of_below. simpl. lia.
  - apply digits_of_below.
    assert (2 ^ 24 ≤ 2 ^ (1 - e)) by (apply Z.pow_le_mono_r; lia). lia.
Qed.

End Magnitude.

Lemma blend_bounded (a c o : float) :
  magnitude_below 0 a → magnitude_below 0 c → magnitude_below 1 o →
  magnitude_below 4 (a + c * o)%f32 ∧ magnitude_below 4 (a - c * o)%f32.
Proof.
  intros Ha Hc Ho.
  apply (fadd_fsub_magnitude 2); [lia | |].
  - by apply magnitude_below_mono with 0%Z.
  - by apply (fmul_magnitude 0 1).
Qed.

Ltac coefficients_bounded Ho :=
  cbv beta iota delta [m_matrix];
  repeat match goal with
         | |- Forall _ (_ :: _) => constructor
         | |- Forall _ [] => constructor
         end;
  (split; [|eapply magnitude_below_finite]);
  (apply blend_bounded; [by vm_compute | by vm_compute | exact Ho]).

(** X8: whatever the amount, unless it is a NaN, every coefficient of
    [grayscaleColorMatrix(amount)] and of [sepiaColorMatrix(amount)] is a
    finite number, below 16 in absolute value: no amount, however large or
    infinite, makes a coefficient overflow or turns it into a NaN. *)
Theorem clamped_factories_finite (amount : float) :
  is_nan amount = false →
  Forall (λ x, magnitude_below 4 x ∧ finite_number x = true)
    (m_matrix (grayscaleColorMatrix amount)) ∧
  Forall (λ x, magnitude_below 4 x ∧ finite_number x = true)
    (m_matrix (sepiaColorMatrix amount)).
Proof.
  intros Ha. pose proof (one_minus_amount_magnitude amount Ha) as Ho.
  split.
  - unfold grayscaleColorMatrix. cbv zeta. coefficients_bounded Ho.
  - unfold sepiaColorMatrix. cbv zeta. coefficients_bounded Ho.
Qed.

Lemma clamped_factories_finite_witness :
  Forall (λ x, magnitude_below 4 x ∧ finite_number x = true)
    (m_matrix (grayscaleColorMatrix (S754_infinity true))).
Proof.
  apply (proj1 (clamped_factories_finite (S754_infinity true) eq_refl)).
Defined.

(** ** The ends of the range of the amount *)

Lemma fle_cases (x y : float) :
  fle x y = true → flt x y = true ∨ feq x y = true.
Proof.
  unfold fle, flt, feq, SFleb, SFltb, SFeqb.
  destruct (SFcompare x y) as [[]|]; auto; discriminate.
Qed.

Lemma one_minus_low (amount : float) :
  fle amount f0 = true → clamp (f1 - amount)%f32 f0 f1 = f1.
Proof.
  destruct amount as [s|[]| |[] m e]; try done. intros _.
  apply clamp_at_least_one, fsub_one_negative.
Qed.

Lemma one_minus_high (amount : float) :
  valid amount = true → fle f1 amount = true →
  clamp (f1 - amount)%f32 f0 f1 = f0.
Proof.
  intros Hv Hle. apply fle_cases in Hle as [Hlt|Heq].
  - destruct amount as [s|[]| |[] m e]; try done.
    by apply clamp_negative, fsub_one_above.
  - apply feq_true in Heq as [_ [<-|[[?|?] _]]]; done.
Qed.

(** X9: at and beyond the ends of the range the two effects are complete:
    for every amount at or below [0], [grayscaleColorMatrix] and
    [sepiaColorMatrix] return the identity matrix, and for every amount at
    or above [1] they return the luma matrix and the matrix of the full
    sepia effect. *)
Theorem clamped_factories_ends (amount : float) :
  valid amount = true →
  (fle amount f0 = true →
     grayscaleColorMatrix amount = identity_matrix ∧
     sepiaColorMatrix amount = identity_matrix) ∧
  (fle f1 amount = true →
     grayscaleColorMatrix amount = luma_matrix ∧
     sepiaColorMatrix amount = sepia_matrix).
Proof.
  intros Hv. split; intros Hle.
  - pose proof (one_minus_low amount Hle) as Ho.
    unfold grayscaleColorMatrix, sepiaColorMatrix. cbv zeta. rewrite Ho.
    split; vm_compute; reflexivity.
  - pose proof (one_minus_high amount Hv Hle) as Ho.
    unfold grayscaleColorMatrix, sepiaColorMatrix. cbv zeta. rewrite Ho.
    split; vm_compute; reflexivity.
Qed.

Lemma clamped_factories_ends_witness :
  grayscaleColorMatrix (S754_infinity false) = luma_matrix ∧
  sepiaColorMatrix (S754_infinity false) = sepia_matrix.
Proof.
  apply (proj2 (clamped_factories_ends (S754_infinity false) eq_refl)).
  reflexivity.
Defined.

Lemma saturation_coefficients_not_nan (amount : float) :
  is_nan amount = false →
  Forall (λ x, is_nan x = false) (m_matrix (saturationColorMatrix amount)).
Proof.
  intros Ha. unfold saturationColorMatrix. coefficients_not_nan Ha.
Qed.

(** X10: [saturationColorMatrix] does not clamp its amount, and a
    coefficient overflows to an infinity when the amount is large enough,
    but no amount other than a NaN puts a NaN in the matrix: the matrix is
    then equal to itself under [operator==]. *)
Theorem saturation_not_nan (amount : float) :
  is_nan amount = false →
  Forall (λ x, is_nan x = false) (m_matrix (saturationColorMatrix amount)) ∧
  operator_eq (saturationColorMatrix amount) (saturationColorMatrix amount)
    = true ∧
  is_infinity (at_ (saturationColorMatrix (S754_infinity false)) 0 0) = true.
Proof.
  intros Ha. pose proof (saturation_coefficients_not_nan amount Ha) as Hall.
  split; [exact Hall|]. split; [|reflexivity].
  by apply operator_eq_refl.
Qed.

Lemma saturation_not_nan_witness :
  operator_eq (saturationColorMatrix (S754_infinity false))
              (saturationColorMatrix (S754_infinity false)) = true.
Proof.
  apply (proj1 (proj2 (saturation_not_nan (S754_infinity false) eq_refl))).
Defined.

(** ** More on the scoped set adder *)

Section ScopedSetAdderMore.

Context {T : Type} {T_eq_dec : EqDecision T} {T_countable : Countable T}.

(** X11: the destructor fails its assertion exactly when the adder had
    added its item and the item is no longer in the set; otherwise it
    removes the item if the adder had added it, and nothing else. *)
Theorem ScopedSetAdder_dtor_outcome (self : ScopedSetAdder) (set : gset T) :
  (ScopedSetAdder_dtor self set = None ↔
     isNewEntry self = true ∧ m_item self ∉ set) ∧
  (∀ set', ScopedSetAdder_dtor self set = Some set' →
     (m_item self ∈ set' ↔ isNewEntry self = false ∧ m_item self ∈ set) ∧
     (∀ y, y ≠ m_item self → (y ∈ set' ↔ y ∈ set))).
Proof.
  unfold ScopedSetAdder_dtor, HashSet_remove, isNewEntry.
  destruct (m_isNewEntry self); simpl.
  - destruct (decide (m_item self ∈ set)) as [Hin|Hout].
    + split; [split; [discriminate | by intros [_ ?]]|].
      intros set' [= <-]. split.
      * rewrite elem_of_difference, elem_of_singleton.
        split; [by intros [_ ?] | by intros [? _]].
      * intros y Hy. rewrite elem_of_difference, elem_of_singleton.
        split; [by intros [? _] | done].
    + split; [done|]. discriminate.
  - split; [split; [discriminate | by intros [? _]]|].
    intros set' [= <-]. split; [|done].
    split; [done | by intros [_ ?]].
Qed.

(** X12: while an adder for an item is alive, a second adder for the same
    item finds the item: its [isNewEntry()] is false, it leaves the set as
    it is, and its destruction leaves the item in the set for the first
    adder, whose destruction then gives back the original set. *)
Theorem ScopedSetAdder_reentrant (s : gset T) (x : T) :
  let '(s1, outer) := ScopedSetAdder_ctor s x in
  let '(s2, inner) := ScopedSetAdder_ctor s1 x in
  isNewEntry inner = false ∧ s2 = s1 ∧
  ScopedSetAdder_dtor inner s2 = Some s1 ∧ x ∈ s1 ∧
  ScopedSetAdder_dtor outer s1 = Some s.
Proof.
  pose proof (ctor_dtor s x) as Houter.
  rewrite ScopedSetAdder_ctor_spec in *. simpl in Houter.
  assert (x ∈ {[x]} ∪ s) as Hin
    by (apply elem_of_union_l; by apply elem_of_singleton).
  unfold ScopedSetAdder_ctor at 1, HashSet_add.
  destruct (decide (x ∈ {[x]} ∪ s)); [|done].
  by repeat split.
Qed.

(** X13: whatever the scope does to the other items, and as long as it
    leaves the adder's item in the set, the destructor succeeds, gives the
    item the membership it had before the construction, and leaves the
    other items as the scope left them. *)
Theorem ScopedSetAdder_frame (s s' : gset T) (x : T) :
  x ∈ s' →
  ∃ s'', ScopedSetAdder_dtor (ScopedSetAdder_ctor s x).2 s' = Some s'' ∧
         (x ∈ s'' ↔ x ∈ s) ∧
         (∀ y, y ≠ x → (y ∈ s'' ↔ y ∈ s')).
Proof.
  intros Hin. rewrite ScopedSetAdder_ctor_spec. simpl.
  rewrite ScopedSetAdder_dtor_spec by done. simpl.
  eexists. split; [reflexivity|]. case_bool_decide as Hx.
  - split.
    + rewrite elem_of_difference, elem_of_singleton.
      split; [by intros [_ ?] | done].
    + intros y Hy. rewrite elem_of_difference, elem_of_singleton.
      split; [by intros [? _] | done].
  - done.
Qed.

End ScopedSetAdderMore.

Lemma ScopedSetAdder_dtor_outcome_witness :
  let self := {| m_item := 2%nat; m_isNewEntry := true |} in
  ScopedSetAdder_dtor self ({[1%nat]} : gset nat) = None.
Proof.
  intros self.
  apply (proj1 (ScopedSetAdder_dtor_outcome self ({[1%nat]} : gset nat))).
  split; [reflexivity|]. vm_compute. discriminate.
Defined.

Lemma ScopedSetAdder_frame_witness :
  ∃ s'', ScopedSetAdder_dtor
           (ScopedSetAdder_ctor ({[1%nat]} : gset nat) 2%nat).2
           ({[2%nat; 3%nat]} : gset nat) = Some s'' ∧
         (2%nat ∈ s'' ↔ 2%nat ∈ ({[1%nat]} : gset nat)) ∧
         (∀ y, y ≠ 2%nat → (y ∈ s'' ↔ y ∈ ({[2%nat; 3%nat]} : gset nat))).
Proof.
  apply (ScopedSetAdder_frame ({[1%nat]} : gset nat) {[2%nat; 3%nat]} 2%nat).
  apply elem_of_union_l. by apply elem_of_singleton.
Defined.

(** ** The coefficients of the hue rotation *)

Lemma rotation_bounded (a l1 l2 c s : float) :
  magnitude_below 0 a → magnitude_below 0 l1 → magnitude_below 0 l2 →
  magnitude_below 1 c → magnitude_below 1 s →
  magnitude_below 6 (a + c * l1 + s * l2)%f32 ∧
  magnitude_below 6 (a + c * l1 - s * l2)%f32 ∧
  magnitude_below 6 (a - c * l1 + s * l2)%f32 ∧
  magnitude_below 6 (a - c * l1 - s * l2)%f32.
Proof.
  intros Ha Hl1 Hl2 Hc Hs.
  pose proof (fmul_magnitude 1 0 c l1 ltac:(lia) Hc Hl1) as Hcl.
  pose proof (fmul_magnitude 1 0 s l2 ltac:(lia) Hs Hl2) as Hsl.
  destruct (fadd_fsub_magnitude 2 a (c * l1)%f32 ltac:(lia)
              (magnitude_below_mono 0 2 a ltac:(lia) Ha) Hcl) as [Hp Hm].
  pose proof (magnitude_below_mono 2 4 _ ltac:(lia) Hsl) as Hsl4.
  destruct (fadd_fsub_magnitude 4 _ _ ltac:(lia) Hp Hsl4) as [? ?].
  destruct (fadd_fsub_magnitude 4 _ _ ltac:(lia) Hm Hsl4) as [? ?].
  done.
Qed.

(** X15: for every angle at which [cos] and [sin] return numbers below 2
    in absolute value, as every cosine and sine is, every coefficient of
    [hueRotateColorMatrix] is a finite number, below 64 in absolute
    value. *)
Theorem hueRotate_finite (cos sin : float → float) (angleInDegrees : float) :
  magnitude_below 1 (cos (deg2rad angleInDegrees)) →
  magnitude_below 1 (sin (deg2rad angleInDegrees)) →
  Forall (λ x, magnitude_below 6 x ∧ finite_number x = true)
    (m_matrix (hueRotateColorMatrix cos sin angleInDegrees)).
Proof.
  intros Hc Hs. unfold hueRotateColorMatrix. cbv zeta.
  cbv beta iota delta [m_matrix].
  repeat match goal with
         | |- Forall _ (_ :: _) => constructor
         | |- Forall _ [] => constructor
         end;
    (split; [|eapply magnitude_below_finite]);
    (eapply rotation_bounded; [by vm_compute..| exact Hc | exact Hs]).
Qed.

Lemma hueRotate_finite_witness :
  Forall (λ x, magnitude_below 6 x ∧ finite_number x = true)
    (m_matrix (hueRotateColorMatrix (λ x, f1 - x * x / of_pos 2)%f32
                 (λ x, x) f0)).
Proof. apply hueRotate_finite; by vm_compute. Defined.
